(** * Flappy: a shallow embedding of [main.js] and its simulation properties

    The game keeps its whole simulation in a handful of script-level
    variables ([state], [bird], [pipes], [spawnTimer], [score],
    [bestScore], [last]) that the input handlers and the frame loop mutate.
    Here they are the fields of one record, [Game], and every function of
    the script that touches them is a function [Game -> Game].

    Numbers.  JavaScript numbers are modelled as exact rationals ([Q]); the
    score and the best score, which only ever hold integers, as [Z].
    Rounding of IEEE doubles is therefore outside this development: every
    statement below is about order, clamping and control flow.

    Collaborators.  Calls to the [Sound] object and to [localStorage] are
    recorded, newest first, in the [calls] field; the [Sound] object and
    the storage have models of their own further down, apart from the game.
    [Math.random()] is an input of the frame: the value it would return is
    passed to [update].

    The canvas element comes from the page, which is not part of the
    script; its two dimensions are a parameter, [Canvas]. *)

From Stdlib Require Import String.
From Stdlib Require Import ZArith QArith Qminmax Qround Lqa Lia List Bool Sorted.
From Stdlib Require Decimal DecimalFacts DecimalPos DecimalZ DecimalString.
Import ListNotations.

Local Open Scope Z_scope.
Local Open Scope Q_scope.

(** ** Comparisons on rationals, as booleans *)

Definition Qlt_bool (a b : Q) : bool := negb (Qle_bool b a).

(** ** Constants (tuning knobs) *)

Definition GRAVITY : Q := 1800.
Definition JUMP_VELOCITY : Q := -550.
Definition BIRD_X : Q := 90.
Definition BIRD_RADIUS : Q := 14.

Definition PIPE_WIDTH : Q := 70.

Definition BASE_PIPE_SPEED : Q := 220.
Definition SPEED_PER_POINT : Q := 6.
Definition MAX_PIPE_SPEED : Q := 360.

Definition BASE_PIPE_GAP : Q := 170.
Definition GAP_SHRINK_PER_POINT : Q := 1.2.
Definition MIN_PIPE_GAP : Q := 135.

Definition BASE_SPAWN_EVERY : Q := 1.35.
Definition MIN_SPAWN_EVERY : Q := 1.10.
Definition SPAWN_ACCEL_PER_POINT : Q := 0.01.

Definition PIPE_MARGIN : Q := 80.

Definition GROUND_HEIGHT : Q := 70.

(** The cap on the time step, the literal [0.05] in [loop]. *)
Definition MAX_DT : Q := 0.05.

(** ** Data *)

(** The [<canvas id="game">] element: [width] and [height] are unsigned
    integers in the DOM. *)
Record Canvas : Type := mkCanvas { width : N; height : N }.

Definition canvas_width (canvas : Canvas) : Q := inject_Z (Z.of_N (width canvas)).
Definition canvas_height (canvas : Canvas) : Q := inject_Z (Z.of_N (height canvas)).

Definition FLOOR_Y (canvas : Canvas) : Q := canvas_height canvas - GROUND_HEIGHT.

Inductive State : Type := START | PLAYING | GAME_OVER.

Definition State_eqb (a b : State) : bool :=
  match a, b with
  | START, START | PLAYING, PLAYING | GAME_OVER, GAME_OVER => true
  | _, _ => false
  end.

Record Bird : Type := mkBird { y : Q; vy : Q }.

(** One entry of [pipes]: [{ x, gapY, scored }]. *)
Record Pipe : Type := mkPipe { x : Q; gapY : Q; scored : bool }.

(** Calls that leave the script: the cues and controls of [Sound], and the
    writes to [localStorage]. *)
Inductive Call : Type :=
| Sound_unlock
| Sound_jump
| Sound_score
| Sound_hit
| Sound_toggleMute
| localStorage_setItem (value : Z)
| localStorage_removeItem.

Record Game : Type := mkGame {
  state : State;
  bird : Bird;
  pipes : list Pipe;
  spawnTimer : Q;
  score : Z;
  bestScore : Z;
  last : Q;
  calls : list Call
}.

(** Assignments to one variable. *)
Definition set_state (s : State) (g : Game) : Game :=
  mkGame s (bird g) (pipes g) (spawnTimer g) (score g) (bestScore g) (last g) (calls g).
Definition set_bird (b : Bird) (g : Game) : Game :=
  mkGame (state g) b (pipes g) (spawnTimer g) (score g) (bestScore g) (last g) (calls g).
Definition set_y (v : Q) (g : Game) : Game := set_bird (mkBird v (vy (bird g))) g.
Definition set_vy (v : Q) (g : Game) : Game := set_bird (mkBird (y (bird g)) v) g.
Definition set_pipes (ps : list Pipe) (g : Game) : Game :=
  mkGame (state g) (bird g) ps (spawnTimer g) (score g) (bestScore g) (last g) (calls g).
Definition set_spawnTimer (t : Q) (g : Game) : Game :=
  mkGame (state g) (bird g) (pipes g) t (score g) (bestScore g) (last g) (calls g).
Definition set_score (s : Z) (g : Game) : Game :=
  mkGame (state g) (bird g) (pipes g) (spawnTimer g) s (bestScore g) (last g) (calls g).
Definition set_bestScore (b : Z) (g : Game) : Game :=
  mkGame (state g) (bird g) (pipes g) (spawnTimer g) (score g) b (last g) (calls g).
Definition set_last (t : Q) (g : Game) : Game :=
  mkGame (state g) (bird g) (pipes g) (spawnTimer g) (score g) (bestScore g) t (calls g).
Definition call (c : Call) (g : Game) : Game :=
  mkGame (state g) (bird g) (pipes g) (spawnTimer g) (score g) (bestScore g) (last g)
         (c :: calls g).

Definition set_x (v : Q) (p : Pipe) : Pipe := mkPipe v (gapY p) (scored p).
Definition set_scored (b : bool) (p : Pipe) : Pipe := mkPipe (x p) (gapY p) b.

(** ** Persistence and run control *)

Definition saveBestScore (value : Z) (g : Game) : Game :=
  call (localStorage_setItem value) g.

Definition setBestScore (newValue : Z) (g : Game) : Game :=
  if (bestScore g <? newValue)%Z
  then saveBestScore newValue (set_bestScore newValue g)
  else g.

Definition resetRun (canvas : Canvas) (g : Game) : Game :=
  set_score 0
    (set_spawnTimer 0
       (set_pipes []
          (set_bird (mkBird (canvas_height canvas * 0.35) 0) g))).

Definition goToStart (canvas : Canvas) (g : Game) : Game :=
  set_state START (resetRun canvas g).

Definition startPlaying (canvas : Canvas) (withJump : bool) (g : Game) : Game :=
  let g := set_state PLAYING (resetRun canvas g) in
  if withJump then call Sound_jump (set_vy JUMP_VELOCITY g) else g.

(** ** Input *)

(** [onPrimaryAction] is an async function: it awaits [Sound.unlock()] and
    its body runs, without interleaving, when that promise fulfils, on the
    game as it is then.  The promise rejects when no audio context exists
    yet and constructing one throws ([ensureContext] calls the constructor
    outside any [try]); then the body never runs.  [unlocked] says which of
    the two happened.  Once an unlock has fulfilled the context exists and
    every later unlock fulfils, [resume()] being called inside a [try]. *)
Definition onPrimaryAction (canvas : Canvas) (unlocked : bool) (g : Game) : Game :=
  let g := call Sound_unlock g in
  if unlocked then
    if State_eqb (state g) START then startPlaying canvas true g
    else if State_eqb (state g) GAME_OVER then startPlaying canvas true g
    else call Sound_jump (set_vy JUMP_VELOCITY g)
  else g.

(** The key codes the [keydown] listener distinguishes. *)
Inductive KeyCode : Type := Space | KeyR | KeyC | KeyM | OtherKey.

(** The [keydown] listener; for the space bar, [unlocked] is the outcome of
    the unlock that [onPrimaryAction] awaits. *)
Definition onKeydown (canvas : Canvas) (code : KeyCode) (unlocked : bool) (g : Game) : Game :=
  match code with
  | Space => onPrimaryAction canvas unlocked g
  | KeyR => goToStart canvas g
  | KeyC => set_bestScore 0 (call localStorage_removeItem g)
  | KeyM => call Sound_toggleMute g
  | OtherKey => g
  end.

(** ** Helpers *)

Definition rand (random : Q) (min max : Q) : Q := min + random * (max - min).

Definition clamp (v lo hi : Q) : Q := Qmax lo (Qmin v hi).

Definition currentPipeSpeed (score : Z) : Q :=
  clamp (BASE_PIPE_SPEED + inject_Z score * SPEED_PER_POINT) BASE_PIPE_SPEED MAX_PIPE_SPEED.

Definition currentPipeGap (score : Z) : Q :=
  clamp (BASE_PIPE_GAP - inject_Z score * GAP_SHRINK_PER_POINT) MIN_PIPE_GAP BASE_PIPE_GAP.

Definition currentSpawnEvery (score : Z) : Q :=
  clamp (BASE_SPAWN_EVERY - inject_Z score * SPAWN_ACCEL_PER_POINT)
        MIN_SPAWN_EVERY BASE_SPAWN_EVERY.

Definition circleIntersectsRect (cx cy r rx ry rw rh : Q) : bool :=
  let closestX := Qmax rx (Qmin cx (rx + rw)) in
  let closestY := Qmax ry (Qmin cy (ry + rh)) in
  let dx := cx - closestX in
  let dy := cy - closestY in
  Qle_bool (dx * dx + dy * dy) (r * r).

(** ** Update *)

(** The body of the collision loop for one pipe: [hitTop || hitBottom]. *)
Definition hitsPipe (canvas : Canvas) (pipeGap birdY : Q) (p : Pipe) : bool :=
  let gapTop := gapY p - pipeGap / 2 in
  let gapBottom := gapY p + pipeGap / 2 in
  let hitTop := circleIntersectsRect BIRD_X birdY BIRD_RADIUS (x p) 0 PIPE_WIDTH gapTop in
  let hitBottom :=
    circleIntersectsRect BIRD_X birdY BIRD_RADIUS
                         (x p) gapBottom PIPE_WIDTH (FLOOR_Y canvas - gapBottom) in
  hitTop || hitBottom.

(** [// spawn pipes] *)
Definition spawnPipes (canvas : Canvas) (spawnEvery pipeGap dt random : Q) (g : Game) : Game :=
  let g := set_spawnTimer (spawnTimer g + dt) g in
  if Qle_bool spawnEvery (spawnTimer g) then
    let g := set_spawnTimer 0 g in
    let minGapY := PIPE_MARGIN + pipeGap / 2 in
    let maxGapY := FLOOR_Y canvas - PIPE_MARGIN - pipeGap / 2 in
    set_pipes
      (pipes g ++ [mkPipe (canvas_width canvas + PIPE_WIDTH) (rand random minGapY maxGapY) false])
      g
  else g.

(** [// move pipes]: the loop that shifts every pipe, then the filter. *)
Definition movePipes (pipeSpeed dt : Q) (g : Game) : Game :=
  let g := set_pipes (map (fun p => set_x (x p - pipeSpeed * dt) p) (pipes g)) g in
  set_pipes (filter (fun p => Qlt_bool 0 (x p + PIPE_WIDTH)) (pipes g)) g.

(** [// scoring]: one pass over [pipes]; the pipes are objects mutated in
    place, so the pass returns the list with the flags it has set. *)
Fixpoint scoringLoop (ps : list Pipe) (g : Game) : list Pipe * Game :=
  match ps with
  | [] => ([], g)
  | p :: rest =>
      if negb (scored p) && Qlt_bool (x p + PIPE_WIDTH) BIRD_X then
        let p := set_scored true p in
        let g := set_score (score g + 1) g in
        let g := setBestScore (score g) g in
        let g := call Sound_score g in
        let '(rest, g) := scoringLoop rest g in
        (p :: rest, g)
      else
        let '(rest, g) := scoringLoop rest g in
        (p :: rest, g)
  end.

Definition scoring (g : Game) : Game :=
  let '(ps, g) := scoringLoop (pipes g) g in
  set_pipes ps g.

(** [// collision]: the loop stops at the first pipe that is hit. *)
Fixpoint collisionLoop (canvas : Canvas) (pipeGap birdY : Q) (ps : list Pipe) (g : Game) : Game :=
  match ps with
  | [] => g
  | p :: rest =>
      if hitsPipe canvas pipeGap birdY p then
        let g := set_state GAME_OVER g in
        let g := set_vy 0 g in
        let g := setBestScore (score g) g in
        call Sound_hit g
      else collisionLoop canvas pipeGap birdY rest g
  end.

Definition collision (canvas : Canvas) (pipeGap : Q) (g : Game) : Game :=
  let birdY := y (bird g) in
  collisionLoop canvas pipeGap birdY (pipes g) g.

(** [// bird physics], up to the ceiling clamp. *)
Definition birdPhysics (dt : Q) (g : Game) : Game :=
  let g := set_vy (vy (bird g) + GRAVITY * dt) g in
  let g := set_y (y (bird g) + vy (bird g) * dt) g in
  let top := BIRD_RADIUS in
  if Qlt_bool (y (bird g)) top then set_vy 0 (set_y top g) else g.

(** [update(dt)].  The three difficulty values are read into constants
    before the physics; [random] is what [Math.random()] returns if the
    spawn step asks for it. *)
Definition update (canvas : Canvas) (dt random : Q) (g : Game) : Game :=
  if negb (State_eqb (state g) PLAYING) then g
  else
    let pipeSpeed := currentPipeSpeed (score g) in
    let pipeGap := currentPipeGap (score g) in
    let spawnEvery := currentSpawnEvery (score g) in
    let g := birdPhysics dt g in
    let bottom := FLOOR_Y canvas - BIRD_RADIUS in
    if Qle_bool bottom (y (bird g)) then
      let g := set_y bottom g in
      let g := set_vy 0 g in
      let g := set_state GAME_OVER g in
      let g := setBestScore (score g) g in
      call Sound_hit g
    else
      let g := spawnPipes canvas spawnEvery pipeGap dt random g in
      let g := movePipes pipeSpeed dt g in
      let g := scoring g in
      collision canvas pipeGap g.

(** [loop(now)]: the time step is the time since the last frame, in
    seconds, capped at [MAX_DT].  Rendering reads the game and does not
    change it. *)
Definition loop (canvas : Canvas) (now random : Q) (g : Game) : Game :=
  let dt := Qmin MAX_DT ((now - last g) / 1000) in
  let g := set_last now g in
  update canvas dt random g.

(** ** The script as a transition system *)

(** [Keydown Space] and [Pointerdown] are presses whose awaited unlock
    fulfils, taken at the moment the body of [onPrimaryAction] resumes;
    [PrimaryRejected] is a press, by key or pointer, whose unlock rejects. *)
Inductive Event : Type :=
| Keydown (code : KeyCode)
| Pointerdown
| AnimationFrame (now random : Q)
| PrimaryRejected.

Definition handle (canvas : Canvas) (e : Event) (g : Game) : Game :=
  match e with
  | Keydown code => onKeydown canvas code true g
  | Pointerdown => onPrimaryAction canvas true g
  | AnimationFrame now random => loop canvas now random g
  | PrimaryRejected => onPrimaryAction canvas false g
  end.

Definition run (canvas : Canvas) (es : list Event) (g : Game) : Game :=
  fold_left (fun g e => handle canvas e g) es g.

(** The variables as the script initialises them: [best] is what
    [loadBestScore()] returned and [now] what [performance.now()] did. *)
Definition initial (canvas : Canvas) (best : Z) (now : Q) : Game :=
  mkGame START (mkBird (canvas_height canvas * 0.35) 0) [] 0 0%Z best now [].

Inductive reachable (canvas : Canvas) : Game -> Prop :=
| reachable_initial (best : Z) (now : Q) :
    (0 <= best)%Z -> reachable canvas (initial canvas best now)
| reachable_handle (e : Event) (g : Game) :
    reachable canvas g -> reachable canvas (handle canvas e g).

(** ** Runs

    A run lasts from [startPlaying] to the next reset.  An event belongs to
    the run in progress when it neither resets the run (R, or a primary
    action outside PLAYING, which starts a fresh run) nor clears the best
    score (C). *)
Definition in_run (g : Game) (e : Event) : Prop :=
  match e with
  | AnimationFrame _ _ => True
  | Keydown KeyM | Keydown OtherKey => True
  | Pointerdown | Keydown Space => state g = PLAYING
  | Keydown KeyR | Keydown KeyC => False
  | PrimaryRejected => True
  end.

Fixpoint within_run (canvas : Canvas) (es : list Event) (g : Game) : Prop :=
  match es with
  | [] => True
  | e :: es => in_run g e /\ within_run canvas es (handle canvas e g)
  end.

(** The test of the scoring pass, on a pipe that has already moved. *)
Definition passes (p : Pipe) : bool :=
  negb (scored p) && Qlt_bool (x p + PIPE_WIDTH) BIRD_X.

(** Within a run the best score is the larger of its value when the run
    started and the score. *)
Definition tracks (best0 : Z) (g : Game) : Prop :=
  bestScore g = Z.max best0 (score g).

(** ** The parts of one tick

    Names for the intermediate games of [update], so that statements can
    speak of the game "as the collision pass finds it". *)

(** The game after the body of the scoring loop has run for a pipe that
    passes the test. *)
Definition scored_one (g : Game) : Game :=
  call Sound_score (setBestScore (score g + 1) (set_score (score g + 1) g)).

(** The game after the body of the collision loop has found a hit. *)
Definition hit_pipe (g : Game) : Game :=
  call Sound_hit (setBestScore (score g) (set_vy 0 (set_state GAME_OVER g))).

(** The game after the floor branch of [update]. *)
Definition hit_floor (canvas : Canvas) (g : Game) : Game :=
  call Sound_hit
    (setBestScore (score g)
       (set_state GAME_OVER (set_vy 0 (set_y (FLOOR_Y canvas - BIRD_RADIUS) g)))).

(** The floor test of [update], on the position the tick has computed. *)
Definition reaches_floor (canvas : Canvas) (dt : Q) (g : Game) : bool :=
  Qle_bool (FLOOR_Y canvas - BIRD_RADIUS) (y (bird (birdPhysics dt g))).

(** The game after the spawn step of a tick that passed the floor test. *)
Definition after_spawn (canvas : Canvas) (dt random : Q) (g : Game) : Game :=
  spawnPipes canvas (currentSpawnEvery (score g)) (currentPipeGap (score g)) dt random
             (birdPhysics dt g).

(** The game as the collision pass finds it. *)
Definition before_collision (canvas : Canvas) (dt random : Q) (g : Game) : Game :=
  scoring (movePipes (currentPipeSpeed (score g)) dt (after_spawn canvas dt random g)).

(** What one tick does to one pipe: shift it, drop it ([None]) when its
    trailing edge has left the canvas, flag it when it has passed the bird. *)
Definition pipeTick (pipeSpeed dt : Q) (p : Pipe) : option Pipe :=
  let p := set_x (x p - pipeSpeed * dt) p in
  if Qlt_bool 0 (x p + PIPE_WIDTH)
  then Some (if passes p then set_scored true p else p)
  else None.

Fixpoint filter_map {A B : Type} (f : A -> option B) (l : list A) : list B :=
  match l with
  | [] => []
  | a :: l => match f a with Some b => b :: filter_map f l | None => filter_map f l end
  end.

(** The flag of [p] goes from false to true in this tick. *)
Definition flips (pipeSpeed dt : Q) (p : Pipe) : bool :=
  match pipeTick pipeSpeed dt p with
  | Some p' => negb (scored p) && scored p'
  | None => false
  end.

(** The pipe the spawn step of a tick appends, if it appends one. *)
Definition spawned (canvas : Canvas) (dt random : Q) (g : Game) : list Pipe :=
  if Qle_bool (currentSpawnEvery (score g)) (spawnTimer g + dt)
  then [mkPipe (canvas_width canvas + PIPE_WIDTH)
               (rand random
                     (PIPE_MARGIN + currentPipeGap (score g) / 2)
                     (FLOOR_Y canvas - PIPE_MARGIN - currentPipeGap (score g) / 2))
               false]
  else [].

(** The tick runs its spawn, move, scoring and collision steps. *)
Definition full_tick (canvas : Canvas) (dt : Q) (g : Game) : bool :=
  State_eqb (state g) PLAYING && negb (reaches_floor canvas dt g).

(** The move and the filter of a tick keep the pipe. *)
Definition kept (pipeSpeed dt : Q) (p : Pipe) : bool :=
  match pipeTick pipeSpeed dt p with
  | Some _ => true
  | None => false
  end.

(** ** Following one pipe

    The pipes are objects: the loops of [update] change them in place and
    [filter] keeps the objects it keeps, in their order.  So the object at
    index [i] of the array, when it is kept, is afterwards at the index
    that counts the kept objects before it. *)
Definition index_after_filter (keep : Pipe -> bool) (l : list Pipe) (i : nat) : option nat :=
  match nth_error l i with
  | Some p => if keep p then Some (length (filter keep (firstn i l))) else None
  | None => None
  end.

Definition same_index (l : list Pipe) (i : nat) : option nat :=
  match nth_error l i with
  | Some _ => Some i
  | None => None
  end.

(** Where the pipe at index [i] of [pipes] is after [update(dt)]. *)
Definition follow_update (canvas : Canvas) (dt : Q) (g : Game) (i : nat) : option nat :=
  if full_tick canvas dt g
  then index_after_filter (kept (currentPipeSpeed (score g)) dt) (pipes g) i
  else same_index (pipes g) i.

(** Where the pipe at index [i] of [pipes] is after an event; [None] when
    it is no longer in the collection (dropped by the filter, or the run
    was reset and [pipes] replaced by an empty array). *)
Definition follow (canvas : Canvas) (e : Event) (g : Game) (i : nat) : option nat :=
  match e with
  | AnimationFrame now random =>
      follow_update canvas (Qmin MAX_DT ((now - last g) / 1000)) (set_last now g) i
  | Keydown KeyR => None
  | Keydown Space | Pointerdown =>
      if State_eqb (state g) PLAYING then same_index (pipes g) i else None
  | Keydown KeyC | Keydown KeyM | Keydown OtherKey | PrimaryRejected => same_index (pipes g) i
  end.

(** The values the [scored] flag of the pipe at index [i] takes, before the
    events and after each of them, for as long as the pipe is in the
    collection. *)
Fixpoint history (canvas : Canvas) (es : list Event) (g : Game) (i : nat) : list bool :=
  match nth_error (pipes g) i with
  | None => []
  | Some p =>
      scored p ::
      match es with
      | [] => []
      | e :: es =>
          match follow canvas e g i with
          | Some j => history canvas es (handle canvas e g) j
          | None => []
          end
      end
  end.

(** The trailing edge of the pipe is still on the canvas. *)
Definition on_canvas (p : Pipe) : Prop := 0 < x p + PIPE_WIDTH.

(** ** Examples used by the closed lemmas below *)

(** A page with a 400 x 600 canvas. *)
Definition canvas400x600 : Canvas := mkCanvas 400 600.

(** Mid-run: the bird is falling, one pipe is ahead of it. *)
Definition midRun : Game :=
  mkGame PLAYING (mkBird 300 120) [mkPipe 250 300 false] 0.4 2%Z 7%Z 1000 [].

(** The bird beside the trailing corner of a pipe that this tick scores:
    the pipe's trailing edge moves from 91 to 80 while the bird, at the top
    of its arc, stays at height 225. *)
Definition besideCorner : Game :=
  mkGame PLAYING (mkBird 225 (-90)) [mkPipe 21 300 false] 0.3 0%Z 0%Z 0 [].

(** The bird inside the column of a pipe, above its gap. *)
Definition inTopPipe : Game :=
  mkGame PLAYING (mkBird 150 0) [mkPipe 60 300 false] 0.3 4%Z 9%Z 0 [].

(** The bird rising fast just under the ceiling, no pipe near. *)
Definition underCeiling : Game :=
  mkGame PLAYING (mkBird 20 (-550)) [mkPipe 300 250 false] 0.3 1%Z 1%Z 0 [].

(** The bird falling just above the floor line. *)
Definition aboveFloor : Game :=
  mkGame PLAYING (mkBird 510 400) [mkPipe 200 250 true] 0.3 3%Z 2%Z 0 [].

(** Three frames, 50 ms apart. *)
Definition threeFrames : list Event :=
  [AnimationFrame 50 0; AnimationFrame 100 0; AnimationFrame 150 0].

(** Frames 50 ms apart, [n] of them, the first at [now + 50]. *)
Fixpoint framesFrom (now : Z) (n : nat) : list Event :=
  match n with
  | O => []
  | S n => AnimationFrame (inject_Z (now + 50)) 0.5 :: framesFrom (now + 50) n
  end.

(** The start of a run up to the frame before the first pipe appears: a
    click to start, then 26 frames with a click every 12 frames to keep the
    bird in the air. *)
Definition firstSeconds : list Event :=
  Pointerdown :: framesFrom 0 12 ++ Pointerdown :: framesFrom 600 12
              ++ Pointerdown :: framesFrom 1200 2.

(** The game those events lead to, from a fresh page load. *)
Definition beforeFirstSpawn : Game :=
  run canvas400x600 firstSeconds (initial canvas400x600 0 0).

(** A frame that scores a pipe, a mute toggle, another frame. *)
Definition scoringFrames : list Event :=
  [AnimationFrame 50 0; Keydown KeyM; AnimationFrame 100 0].

(** ** Geometry of the collision test *)

(** The point [(px, py)] lies in the rectangle with corner [(rx, ry)],
    width [rw] and height [rh]. *)
Definition in_rect (rx ry rw rh px py : Q) : Prop :=
  rx <= px /\ px <= rx + rw /\ ry <= py /\ py <= ry + rh.

(** The point lies in the closed disc of radius [r] around [(cx, cy)]. *)
Definition in_disc (cx cy r px py : Q) : Prop :=
  (cx - px) * (cx - px) + (cy - py) * (cy - py) <= r * r.

(** The column of the pipe spans the bird's horizontal coordinate. *)
Definition over_bird (p : Pipe) : Prop :=
  x p <= BIRD_X /\ BIRD_X <= x p + PIPE_WIDTH.

(** The bird in the middle of the gap of a pipe whose column it is in. *)
Definition inGap : Game :=
  mkGame PLAYING (mkBird 300 0) [mkPipe 60 300 false] 0.3 0%Z 0%Z 0 [].

(** The bird rising through the ceiling line inside the column of a pipe. *)
Definition ceilingInColumn : Game :=
  mkGame PLAYING (mkBird 20 (-550)) [mkPipe 60 300 false] 0.3 0%Z 0%Z 0 [].

(** ** Spawned gaps *)





(** ** Distance between pipes *)

(** The least distance pipes keep: what the slowest pipe travels in the
    shortest spawn interval less one capped time step, 220 * 1.05 = 231. *)
Definition MIN_SPACING : Q := BASE_PIPE_SPEED * (MIN_SPAWN_EVERY - MAX_DT).

(** [b] is at least [MIN_SPACING] to the right of [a]. *)
Definition spaced (a b : Pipe) : Prop := x a + MIN_SPACING <= x b.

(** [p] has moved away from the spawn point by at least what the slowest
    pipe travels in [timer] seconds. *)
Definition behind_spawn (canvas : Canvas) (timer : Q) (p : Pipe) : Prop :=
  x p + BASE_PIPE_SPEED * timer <= canvas_width canvas + PIPE_WIDTH.

Definition well_spaced (canvas : Canvas) (g : Game) : Prop :=
  StronglySorted spaced (pipes g) /\
  Forall (behind_spawn canvas (spawnTimer g)) (pipes g).

(** The timestamps of the frames never go back, starting from [t]. *)
Fixpoint monotone_frames (t : Q) (es : list Event) : Prop :=
  match es with
  | [] => True
  | AnimationFrame now _ :: es => t <= now /\ monotone_frames now es
  | _ :: es => monotone_frames t es
  end.

(** A click before every frame, frames 50 ms apart: the bird climbs to
    the ceiling line and stays there. *)
Fixpoint flapping (now : Z) (n : nat) : list Event :=
  match n with
  | O => []
  | S n => Pointerdown :: AnimationFrame (inject_Z (now + 50)) 0.5 :: flapping (now + 50) n
  end.

(** A run long enough for two pipes: the first appears at 1350 ms, the
    second at 2700 ms. *)
Definition twoPipes : list Event := flapping 0 54.

(** ** Scoring and phases *)

(** A pipe whose trailing edge is left of the bird carries the flag. *)
Definition scored_if_passed (p : Pipe) : Prop :=
  x p + PIPE_WIDTH < BIRD_X -> scored p = true.

(** The event is a frame of the animation loop. *)
Definition is_frame (e : Event) : Prop :=
  match e with AnimationFrame _ _ => True | _ => False end.

(** The event is a primary action: the space bar or a pointer press. *)
Definition is_primary (e : Event) : Prop :=
  match e with Pointerdown | Keydown Space => True | _ => False end.

(** A game over with a score and pipes left on the canvas. *)
Definition afterCrash : Game :=
  mkGame GAME_OVER (mkBird 154.5 0) [mkPipe 47.8 300 false; mkPipe 340 260 false]
         0.35 4%Z 9%Z 2000 [Sound_hit].

(** Five frames, 16 ms apart. *)
Definition fiveFrames : list Event :=
  [AnimationFrame 2016 0.1; AnimationFrame 2032 0.2; AnimationFrame 2048 0.3;
   AnimationFrame 2064 0.4; AnimationFrame 2080 0.5].

(** The game after those events, from a fresh page load. *)
Definition afterTwoPipes : Game :=
  run canvas400x600 twoPipes (initial canvas400x600 0 0).

(** ** Persistence

    [localStorage] is a collaborator: a map from keys to strings whose every
    access may throw (storage disabled, quota).  [String(value)] and
    [Number(raw)] on strings are the language's own conversions and are taken
    as parameters [toString] and [toNumber]; [Number(null)] is 0. *)

Definition BEST_SCORE_KEY : String.string := "flappy_best_score_v1"%string.

Record Storage : Type := mkStorage {
  throws : bool;
  items : String.string -> option String.string
}.

(** The values [Number(raw)] can take. *)
Inductive JSNumber : Type :=
| NaN
| Infinite (negative : bool)
| Finite (q : Q).

Definition Number_of (toNumber : String.string -> JSNumber) (raw : option String.string)
  : JSNumber :=
  match raw with
  | None => Finite 0
  | Some text => toNumber text
  end.

Definition loadBestScore (toNumber : String.string -> JSNumber) (storage : Storage) : Z :=
  if throws storage then 0%Z
  else
    let raw := items storage BEST_SCORE_KEY in
    let n := Number_of toNumber raw in
    match n with
    | Finite q => if Qle_bool 0 q then Qfloor q else 0%Z
    | _ => 0%Z
    end.

(** What a call of the script does to the storage: [setItem] and
    [removeItem] on [BEST_SCORE_KEY], inside their [try] blocks. *)
Definition perform (toString : Z -> String.string) (c : Call) (storage : Storage) : Storage :=
  match c with
  | localStorage_setItem value =>
      if throws storage then storage
      else mkStorage false
             (fun key => if String.eqb key BEST_SCORE_KEY then Some (toString value)
                         else items storage key)
  | localStorage_removeItem =>
      if throws storage then storage
      else mkStorage false
             (fun key => if String.eqb key BEST_SCORE_KEY then None else items storage key)
  | _ => storage
  end.

(** The storage after the calls of a game, oldest first ([calls] lists the
    newest first). *)
Definition stored (toString : Z -> String.string) (cs : list Call) (storage : Storage)
  : Storage :=
  fold_right (perform toString) storage cs.

(** What is in the storage reads back as the best score of the game. *)
Definition in_step (toString : Z -> String.string) (toNumber : String.string -> JSNumber)
           (storage : Storage) (g : Game) : Prop :=
  throws (stored toString (calls g) storage) = false /\
  loadBestScore toNumber (stored toString (calls g) storage) = bestScore g.

(** Decimal notation for integers, and its reading. *)
Definition decimal (value : Z) : String.string :=
  DecimalString.NilZero.string_of_int (Z.to_int value).

Definition fromDecimal (text : String.string) : JSNumber :=
  match DecimalString.NilZero.int_of_string text with
  | Some d => Finite (inject_Z (Z.of_int d))
  | None => NaN
  end.

(** A storage that holds nothing, and one whose every access throws. *)
Definition emptyStorage : Storage := mkStorage false (fun _ => None).

Definition blockedStorage : Storage := mkStorage true (fun _ => Some "12"%string).

(** A short session: a start, a frame, the best score cleared, a reset. *)
Definition scoreThenClear : list Event :=
  [Pointerdown; AnimationFrame 50 0; Keydown KeyC; Keydown KeyR].

(** A storage that holds ["3"] under the key. *)
Definition storageWith3 : Storage :=
  stored decimal [localStorage_setItem 3] emptyStorage.

(** ** The [Sound] object

    The closure keeps two variables, [ctxAudio] and [muted].  Of the audio
    context only its [state] is modelled; the state a newly constructed
    context starts in and whether [resume()] succeeds are decided by the
    browser and are inputs ([fresh], [resumed]).  Oscillators that have
    been started are recorded, newest first, with their schedule relative
    to the context's current time; callbacks handed to [setTimeout] wait in
    [timers], oldest first.  [unlock] is an async function and is taken at
    the moment its [resume()] settles. *)
Module Sound.

Inductive ContextState : Type := suspended | running | closed.

Inductive OscillatorType : Type := sine | square | triangle.

(** The argument of [beep], defaults filled in. *)
Record Options : Type := mkOptions {
  freq : Q; duration : Q; type : OscillatorType; gain : Q; ramp : Q
}.

(** One oscillator with its gain envelope: the gain rises to [peak] until
    [rampUntil], falls until [decayUntil], and the oscillator stops at
    [stopAt]; times count from the start of the oscillator. *)
Record Oscillator : Type := mkOscillator {
  oscType : OscillatorType; frequency : Q; peak : Q;
  rampUntil : Q; decayUntil : Q; stopAt : Q
}.

Record t : Type := mkSound {
  ctxAudio : option ContextState;
  muted : bool;
  started : list Oscillator;
  timers : list Options
}.

(** [new AudioCtx()] is called outside any [try]: when the browser has no
    audio context to offer the constructor throws, and so does
    [ensureContext] ([None]).  [fresh] is [None] in that case and otherwise
    the state the new context starts in. *)
Definition ensureContext (fresh : option ContextState) (s : t) : option t :=
  match ctxAudio s with
  | Some _ => Some s
  | None =>
      match fresh with
      | Some c => Some (mkSound (Some c) (muted s) (started s) (timers s))
      | None => None
      end
  end.

(** [None]: the promise rejects, nothing has changed. *)
Definition unlock (fresh : option ContextState) (resumed : bool) (s : t) : option t :=
  match ensureContext fresh s with
  | None => None
  | Some s =>
      match ctxAudio s with
      | Some suspended =>
          Some (if resumed then mkSound (Some running) (muted s) (started s) (timers s) else s)
      | _ => Some s
      end
  end.

(** [None]: the call throws, nothing has changed. *)
Definition beep (o : Options) (fresh : option ContextState) (s : t) : option t :=
  if muted s then Some s
  else
    match ensureContext fresh s with
    | None => None
    | Some s =>
        match ctxAudio s with
        | Some running =>
            let osc :=
              mkOscillator (type o) (freq o) (gain o)
                           (Qmax 0.001 (ramp o)) (duration o) (duration o + 0.01) in
            Some (mkSound (ctxAudio s) (muted s) (osc :: started s) (timers s))
        | _ => Some s
        end
    end.

Definition jump (fresh : option ContextState) (s : t) : option t :=
  beep (mkOptions 720 0.07 square 0.045 0.01) fresh s.

(** The second tone of [score] is handed to [setTimeout] with a delay of
    35 ms, unless the first [beep] has thrown. *)
Definition score (fresh : option ContextState) (s : t) : option t :=
  match beep (mkOptions 980 0.06 sine 0.05 0.01) fresh s with
  | None => None
  | Some s =>
      Some (mkSound (ctxAudio s) (muted s) (started s)
                    (timers s ++ [mkOptions 1220 0.05 sine 0.04 0.01]))
  end.

Definition hit (fresh : option ContextState) (s : t) : option t :=
  beep (mkOptions 180 0.12 triangle 0.08 0.01) fresh s.

Definition toggleMute (s : t) : bool * t :=
  let s := mkSound (ctxAudio s) (negb (muted s)) (started s) (timers s) in
  (muted s, s).

Definition isMuted (s : t) : bool := muted s.

(** The object after a call that has returned or thrown. *)
Definition settle (result : option t) (s : t) : t :=
  match result with
  | Some s' => s'
  | None => s
  end.

(** The oldest pending timer fires; the timer is gone whether or not its
    [beep] throws. *)
Definition timeout (fresh : option ContextState) (s : t) : t :=
  match timers s with
  | [] => s
  | o :: rest =>
      let s := mkSound (ctxAudio s) (muted s) (started s) rest in
      settle (beep o fresh s) s
  end.

(** What can happen to the object. *)
Inductive Op : Type :=
| Unlock (fresh : option ContextState) (resumed : bool)
| Jump (fresh : option ContextState)
| Score (fresh : option ContextState)
| Hit (fresh : option ContextState)
| ToggleMute
| Timeout (fresh : option ContextState).

Definition apply (op : Op) (s : t) : t :=
  match op with
  | Unlock fresh resumed => settle (unlock fresh resumed s) s
  | Jump fresh => settle (jump fresh s) s
  | Score fresh => settle (score fresh s) s
  | Hit fresh => settle (hit fresh s) s
  | ToggleMute => snd (toggleMute s)
  | Timeout fresh => timeout fresh s
  end.

Definition run (ops : list Op) (s : t) : t := fold_left (fun s op => apply op s) ops s.

(** The object as the script creates it. *)
Definition initial : t := mkSound None false [] [].

Definition is_toggle (op : Op) : Prop :=
  match op with ToggleMute => True | _ => False end.

Definition is_unlock (op : Op) : Prop :=
  match op with Unlock _ _ => True | _ => False end.

(** The browser hands out a running context. *)
Definition fresh_running (op : Op) : Prop :=
  match op with
  | Unlock (Some running) _ | Jump (Some running) | Score (Some running)
  | Hit (Some running) | Timeout (Some running) => True
  | _ => False
  end.

(** The envelope of an oscillator is in order. *)
Definition well_timed (o : Oscillator) : Prop :=
  0 < rampUntil o /\ rampUntil o < decayUntil o /\ decayUntil o < stopAt o.

(** The delayed tone of [score] has a well-ordered schedule. *)
Definition timer_ok (o : Options) : Prop :=
  ramp o < duration o /\ 0.001 < duration o.

End Sound.

(** An operation that can leave the context running: one that may
    construct a running context, or an unlock whose [resume()] succeeds. *)
Definition may_start_audio (op : Sound.Op) : Prop :=
  Sound.fresh_running op \/ exists fresh, op = Sound.Unlock fresh true.

(** Cues and timers while muted, with an unlock in between. *)
Definition mutedCues : list Sound.Op :=
  [Sound.Jump (Some Sound.running); Sound.Unlock (Some Sound.suspended) true;
   Sound.Score None; Sound.Timeout (Some Sound.suspended); Sound.Hit (Some Sound.suspended)].

(** Cues before any unlock, in a browser that hands out suspended contexts
    or none at all. *)
Definition cuesBeforeUnlock : list Sound.Op :=
  [Sound.Jump None; Sound.Unlock None false; Sound.Jump (Some Sound.suspended);
   Sound.Score (Some Sound.suspended); Sound.ToggleMute; Sound.ToggleMute;
   Sound.Timeout (Some Sound.suspended); Sound.Unlock (Some Sound.suspended) false;
   Sound.Hit (Some Sound.suspended)].

(** A session with sound: an unlock that rejects, one that fulfils, then
    cues, a mute in between. *)
Definition audibleSession : list Sound.Op :=
  [Sound.Unlock None true; Sound.Unlock (Some Sound.suspended) true;
   Sound.Jump (Some Sound.suspended); Sound.Score (Some Sound.suspended);
   Sound.Timeout (Some Sound.suspended); Sound.ToggleMute; Sound.Hit (Some Sound.suspended);
   Sound.ToggleMute; Sound.Hit None].

(** Muted, with a running context. *)
Definition mutedRunning : Sound.t := Sound.mkSound (Some Sound.running) true [] [].

(** * Properties *)

(** ** Basic facts *)

Lemma Qlt_bool_iff (a b : Q) : Qlt_bool a b = true <-> a < b.
Proof.
  unfold Qlt_bool. rewrite negb_true_iff. split.
  - intros H. apply Qnot_le_lt. intros Hle.
    apply Qle_bool_iff in Hle. congruence.
  - intros H. destruct (Qle_bool b a) eqn:E; [|reflexivity].
    apply Qle_bool_iff in E. exfalso. exact (Qlt_not_le _ _ H E).
Qed.

Lemma Qlt_bool_false_iff (a b : Q) : Qlt_bool a b = false <-> b <= a.
Proof.
  unfold Qlt_bool. rewrite negb_false_iff. apply Qle_bool_iff.
Qed.

Lemma Qle_bool_false_iff (a b : Q) : Qle_bool a b = false <-> b < a.
Proof.
  rewrite <- Qlt_bool_iff. unfold Qlt_bool.
  destruct (Qle_bool a b); simpl; intuition congruence.
Qed.

Lemma State_eqb_eq (a b : State) : State_eqb a b = true <-> a = b.
Proof. destruct a, b; simpl; split; congruence. Qed.

Lemma clamp_bounds (v lo hi : Q) : lo <= hi -> lo <= clamp v lo hi /\ clamp v lo hi <= hi.
Proof.
  intros Hlh. unfold clamp. split.
  - apply Q.le_max_l.
  - apply Q.max_lub; [exact Hlh | apply Q.le_min_r].
Qed.

Lemma clamp_monotone (v v' lo hi : Q) : v <= v' -> clamp v lo hi <= clamp v' lo hi.
Proof.
  intros Hv. unfold clamp.
  apply Q.max_le_compat_l. apply Q.min_le_compat_r. exact Hv.
Qed.

Lemma inject_Z_le (s t : Z) : (s <= t)%Z -> inject_Z s <= inject_Z t.
Proof. intros H. rewrite <- Zle_Qle. exact H. Qed.

(** ** C5: the difficulty ramp *)

(** C5.  For integer scores [0 <= s <= t]: the pipe speed lies between the
    base and the maximum speed and does not decrease from [s] to [t]; the
    gap lies between the minimum and the base gap and does not increase;
    the spawn interval lies between its minimum and its base value and does
    not increase. *)
Theorem difficulty_bounded_monotone (s t : Z) :
  (0 <= s)%Z -> (s <= t)%Z ->
  (BASE_PIPE_SPEED <= currentPipeSpeed s /\ currentPipeSpeed s <= MAX_PIPE_SPEED /\
   currentPipeSpeed s <= currentPipeSpeed t) /\
  (MIN_PIPE_GAP <= currentPipeGap s /\ currentPipeGap s <= BASE_PIPE_GAP /\
   currentPipeGap t <= currentPipeGap s) /\
  (MIN_SPAWN_EVERY <= currentSpawnEvery s /\ currentSpawnEvery s <= BASE_SPAWN_EVERY /\
   currentSpawnEvery t <= currentSpawnEvery s).
Proof.
  intros _ Hst. apply inject_Z_le in Hst.
  unfold currentPipeSpeed, currentPipeGap, currentSpawnEvery.
  repeat split;
    try (apply clamp_bounds; vm_compute; discriminate);
    apply clamp_monotone.
  - unfold SPEED_PER_POINT. lra.
  - unfold GAP_SHRINK_PER_POINT. lra.
  - unfold SPAWN_ACCEL_PER_POINT. lra.
Qed.

Lemma difficulty_bounded_monotone_witness :
  (0 <= 3)%Z /\ (3 <= 40)%Z /\
  currentPipeSpeed 3 == 238 /\ currentPipeSpeed 40 == 360 /\
  currentPipeSpeed 3 <= currentPipeSpeed 40 /\
  currentPipeGap 40 <= currentPipeGap 3 /\
  currentSpawnEvery 40 <= currentSpawnEvery 3.
Proof.
  assert (H0 : (0 <= 3)%Z) by lia.
  assert (H1 : (3 <= 40)%Z) by lia.
  pose proof (difficulty_bounded_monotone 3 40 H0 H1) as [[_ [_ Hs]] [[_ [_ Hg]] [_ [_ Hi]]]].
  repeat split; try assumption; vm_compute; reflexivity.
Defined.

(** ** What each step leaves alone *)

Lemma setBestScore_bestScore (v : Z) (g : Game) :
  bestScore (setBestScore v g) = Z.max (bestScore g) v.
Proof.
  unfold setBestScore. destruct (Z.ltb_spec (bestScore g) v); simpl; lia.
Qed.

Lemma setBestScore_frame (v : Z) (g : Game) :
  state (setBestScore v g) = state g /\ bird (setBestScore v g) = bird g /\
  pipes (setBestScore v g) = pipes g /\ spawnTimer (setBestScore v g) = spawnTimer g /\
  score (setBestScore v g) = score g /\ last (setBestScore v g) = last g.
Proof. unfold setBestScore. destruct (bestScore g <? v)%Z; simpl; auto 10. Qed.

Lemma scoringLoop_cons (p : Pipe) (rest : list Pipe) (g : Game) :
  scoringLoop (p :: rest) g =
  if passes p
  then (set_scored true p :: fst (scoringLoop rest (scored_one g)),
        snd (scoringLoop rest (scored_one g)))
  else (p :: fst (scoringLoop rest g), snd (scoringLoop rest g)).
Proof.
  simpl. fold (passes p). destruct (passes p).
  - fold (scored_one g). now destruct (scoringLoop rest (scored_one g)).
  - now destruct (scoringLoop rest g).
Qed.

Lemma scored_one_frame (g : Game) :
  state (scored_one g) = state g /\ bird (scored_one g) = bird g /\
  pipes (scored_one g) = pipes g /\ spawnTimer (scored_one g) = spawnTimer g /\
  score (scored_one g) = (score g + 1)%Z /\ last (scored_one g) = last g /\
  bestScore (scored_one g) = Z.max (bestScore g) (score g + 1).
Proof.
  unfold scored_one.
  destruct (setBestScore_frame (score g + 1) (set_score (score g + 1) g))
    as (E1 & E2 & E3 & E4 & E5 & E6).
  pose proof (setBestScore_bestScore (score g + 1) (set_score (score g + 1) g)) as E7.
  cbn [state bird pipes spawnTimer score last bestScore call set_score] in *.
  auto 10.
Qed.

Lemma scoringLoop_frame (ps : list Pipe) (g : Game) :
  state (snd (scoringLoop ps g)) = state g /\ bird (snd (scoringLoop ps g)) = bird g /\
  pipes (snd (scoringLoop ps g)) = pipes g /\
  spawnTimer (snd (scoringLoop ps g)) = spawnTimer g /\
  last (snd (scoringLoop ps g)) = last g.
Proof.
  revert g. induction ps as [|p rest IH]; intros g; [simpl; auto|].
  rewrite scoringLoop_cons. destruct (passes p); cbn [snd]; [|apply IH].
  destruct (IH (scored_one g)) as (I1 & I2 & I3 & I4 & I5).
  destruct (scored_one_frame g) as (E1 & E2 & E3 & E4 & _ & E6 & _).
  rewrite I1, I2, I3, I4, I5. auto.
Qed.

Lemma scoringLoop_pipes (ps : list Pipe) (g : Game) :
  fst (scoringLoop ps g) = map (fun p => if passes p then set_scored true p else p) ps.
Proof.
  revert g. induction ps as [|p rest IH]; intros g; [reflexivity|].
  rewrite scoringLoop_cons. cbn [map].
  destruct (passes p); cbn [fst]; now rewrite IH.
Qed.

Lemma scoringLoop_score (ps : list Pipe) (g : Game) :
  score (snd (scoringLoop ps g)) = (score g + Z.of_nat (length (filter passes ps)))%Z.
Proof.
  revert g. induction ps as [|p rest IH]; intros g; [simpl; lia|].
  rewrite scoringLoop_cons. cbn [filter].
  destruct (passes p); cbn [snd]; rewrite IH; [|reflexivity].
  destruct (scored_one_frame g) as (_ & _ & _ & _ & E5 & _).
  rewrite E5. cbn [length]. lia.
Qed.

Lemma scoringLoop_bestScore_le (ps : list Pipe) (g : Game) :
  (bestScore g <= bestScore (snd (scoringLoop ps g)))%Z.
Proof.
  revert g. induction ps as [|p rest IH]; intros g; [simpl; lia|].
  rewrite scoringLoop_cons. destruct (passes p); cbn [snd]; [|apply IH].
  specialize (IH (scored_one g)).
  destruct (scored_one_frame g) as (_ & _ & _ & _ & _ & _ & E7). lia.
Qed.

Lemma scoringLoop_tracks (best0 : Z) (ps : list Pipe) (g : Game) :
  tracks best0 g -> tracks best0 (snd (scoringLoop ps g)).
Proof.
  revert g. induction ps as [|p rest IH]; intros g Hg; [exact Hg|].
  rewrite scoringLoop_cons. destruct (passes p); cbn [snd]; [|auto].
  apply IH. unfold tracks in *.
  destruct (scored_one_frame g) as (_ & _ & _ & _ & E5 & _ & E7). lia.
Qed.

(** The collision loop stops at the first hit; what it does depends only on
    whether some pipe is hit. *)
Lemma collisionLoop_existsb (canvas : Canvas) (gap birdY : Q) (ps : list Pipe) (g : Game) :
  collisionLoop canvas gap birdY ps g =
  if existsb (hitsPipe canvas gap birdY) ps then hit_pipe g else g.
Proof.
  induction ps as [|p rest IH]; simpl; [reflexivity|].
  destruct (hitsPipe canvas gap birdY p); simpl; [reflexivity | exact IH].
Qed.

Lemma hit_pipe_frame (g : Game) :
  state (hit_pipe g) = GAME_OVER /\ bird (hit_pipe g) = mkBird (y (bird g)) 0 /\
  pipes (hit_pipe g) = pipes g /\ spawnTimer (hit_pipe g) = spawnTimer g /\
  score (hit_pipe g) = score g /\ last (hit_pipe g) = last g /\
  bestScore (hit_pipe g) = Z.max (bestScore g) (score g).
Proof.
  unfold hit_pipe.
  destruct (setBestScore_frame (score g) (set_vy 0 (set_state GAME_OVER g)))
    as (E1 & E2 & E3 & E4 & E5 & E6).
  pose proof (setBestScore_bestScore (score g) (set_vy 0 (set_state GAME_OVER g))) as E7.
  cbn [state bird pipes spawnTimer score last bestScore call set_vy set_bird set_state y] in *.
  auto 10.
Qed.

(** ** One tick, unfolded *)

Lemma update_not_playing (canvas : Canvas) (dt random : Q) (g : Game) :
  state g <> PLAYING -> update canvas dt random g = g.
Proof.
  intros H. unfold update.
  destruct (State_eqb (state g) PLAYING) eqn:E; [|reflexivity].
  apply State_eqb_eq in E. contradiction.
Qed.

Lemma update_playing (canvas : Canvas) (dt random : Q) (g : Game) :
  state g = PLAYING ->
  update canvas dt random g =
  if reaches_floor canvas dt g
  then hit_floor canvas (birdPhysics dt g)
  else collision canvas (currentPipeGap (score g)) (before_collision canvas dt random g).
Proof.
  intros H. unfold update. rewrite H. cbn [State_eqb negb].
  unfold reaches_floor.
  destruct (Qle_bool (FLOOR_Y canvas - BIRD_RADIUS) (y (bird (birdPhysics dt g))));
    reflexivity.
Qed.

Lemma collision_existsb (canvas : Canvas) (gap : Q) (g : Game) :
  collision canvas gap g =
  if existsb (hitsPipe canvas gap (y (bird g))) (pipes g) then hit_pipe g else g.
Proof. unfold collision. apply collisionLoop_existsb. Qed.

Lemma birdPhysics_frame (dt : Q) (g : Game) :
  state (birdPhysics dt g) = state g /\ pipes (birdPhysics dt g) = pipes g /\
  spawnTimer (birdPhysics dt g) = spawnTimer g /\ score (birdPhysics dt g) = score g /\
  bestScore (birdPhysics dt g) = bestScore g /\ last (birdPhysics dt g) = last g /\
  calls (birdPhysics dt g) = calls g.
Proof.
  unfold birdPhysics.
  match goal with |- context [if ?c then _ else _] => destruct c end;
    simpl; auto 10.
Qed.

Lemma hit_floor_frame (canvas : Canvas) (g : Game) :
  state (hit_floor canvas g) = GAME_OVER /\
  bird (hit_floor canvas g) = mkBird (FLOOR_Y canvas - BIRD_RADIUS) 0 /\
  pipes (hit_floor canvas g) = pipes g /\ spawnTimer (hit_floor canvas g) = spawnTimer g /\
  score (hit_floor canvas g) = score g /\ last (hit_floor canvas g) = last g /\
  bestScore (hit_floor canvas g) = Z.max (bestScore g) (score g).
Proof.
  unfold hit_floor.
  set (h := set_state GAME_OVER (set_vy 0 (set_y (FLOOR_Y canvas - BIRD_RADIUS) g))).
  destruct (setBestScore_frame (score g) h) as (E1 & E2 & E3 & E4 & E5 & E6).
  pose proof (setBestScore_bestScore (score g) h) as E7.
  cbn [state bird pipes spawnTimer score last bestScore call] in *.
  rewrite E1, E2, E3, E4, E5, E6, E7. subst h. simpl. auto 10.
Qed.

Lemma spawnPipes_frame (canvas : Canvas) (every gap dt random : Q) (g : Game) :
  state (spawnPipes canvas every gap dt random g) = state g /\
  bird (spawnPipes canvas every gap dt random g) = bird g /\
  score (spawnPipes canvas every gap dt random g) = score g /\
  bestScore (spawnPipes canvas every gap dt random g) = bestScore g /\
  last (spawnPipes canvas every gap dt random g) = last g /\
  calls (spawnPipes canvas every gap dt random g) = calls g.
Proof.
  unfold spawnPipes.
  match goal with |- context [if ?c then _ else _] => destruct c end;
    simpl; auto 10.
Qed.

Lemma scoring_frame (g : Game) :
  state (scoring g) = state g /\ bird (scoring g) = bird g /\
  spawnTimer (scoring g) = spawnTimer g /\ last (scoring g) = last g.
Proof.
  unfold scoring. destruct (scoringLoop_frame (pipes g) g) as (E1 & E2 & _ & E4 & E5).
  destruct (scoringLoop (pipes g) g) as [ps g']. simpl in *. auto.
Qed.

Lemma before_collision_frame (canvas : Canvas) (dt random : Q) (g : Game) :
  state (before_collision canvas dt random g) = state g /\
  bird (before_collision canvas dt random g) = bird (birdPhysics dt g) /\
  last (before_collision canvas dt random g) = last g.
Proof.
  unfold before_collision, after_spawn.
  match goal with |- context [scoring ?h] =>
    destruct (scoring_frame h) as (E1 & E2 & _ & E4) end.
  rewrite E1, E2, E4. unfold movePipes. cbn [state bird last set_pipes].
  match goal with |- context [spawnPipes ?c ?e ?gp ?d ?r ?h] =>
    destruct (spawnPipes_frame c e gp d r h) as (S1 & S2 & _ & _ & S5 & _) end.
  rewrite S1, S2, S5.
  destruct (birdPhysics_frame dt g) as (B1 & _ & _ & _ & _ & B6 & _).
  rewrite B1, B6. auto.
Qed.

Lemma setBestScore_calls (v : Z) (g : Game) :
  calls (setBestScore v g) =
  (if (bestScore g <? v)%Z then [localStorage_setItem v] else []) ++ calls g.
Proof. unfold setBestScore. destruct (bestScore g <? v)%Z; reflexivity. Qed.

(** The position [update] tests against the floor: the integrated
    position, raised to the ceiling line when it is above it. *)
Lemma birdPhysics_y (dt : Q) (g : Game) :
  let y1 := y (bird g) + (vy (bird g) + GRAVITY * dt) * dt in
  y (bird (birdPhysics dt g)) = if Qlt_bool y1 BIRD_RADIUS then BIRD_RADIUS else y1.
Proof.
  unfold birdPhysics. cbn [set_vy set_y set_bird bird y vy].
  match goal with |- context [if ?c then _ else _] => destruct c end; reflexivity.
Qed.

Lemma birdPhysics_ceiling (dt : Q) (g : Game) :
  BIRD_RADIUS <= y (bird (birdPhysics dt g)).
Proof.
  rewrite birdPhysics_y. cbv zeta.
  match goal with |- context [Qlt_bool ?a ?b] => destruct (Qlt_bool a b) eqn:E end.
  - apply Qle_refl.
  - apply Qlt_bool_false_iff in E. exact E.
Qed.

(** A bird that is at the floor line before the tick and does not rise
    during it is at the floor line when [update] tests it. *)
Lemma floor_reached_when_not_rising (canvas : Canvas) (dt : Q) (g : Game) :
  FLOOR_Y canvas - BIRD_RADIUS <= y (bird g) ->
  0 <= (vy (bird g) + GRAVITY * dt) * dt ->
  FLOOR_Y canvas - BIRD_RADIUS <= y (bird (birdPhysics dt g)).
Proof.
  intros Hy Hv. rewrite birdPhysics_y. cbv zeta.
  match goal with |- context [Qlt_bool ?a ?b] => destruct (Qlt_bool a b) eqn:E end.
  - apply Qlt_bool_iff in E. lra.
  - lra.
Qed.

(** The floor branch of [update], field by field. *)
Lemma update_reaches_floor (canvas : Canvas) (dt random : Q) (g : Game) :
  state g = PLAYING ->
  FLOOR_Y canvas - BIRD_RADIUS <= y (bird (birdPhysics dt g)) ->
  let g' := update canvas dt random g in
  state g' = GAME_OVER /\
  y (bird g') = FLOOR_Y canvas - BIRD_RADIUS /\
  vy (bird g') = 0 /\
  bestScore g' = Z.max (bestScore g) (score g) /\
  calls g' =
    Sound_hit ::
    (if (bestScore g <? score g)%Z then [localStorage_setItem (score g)] else []) ++ calls g /\
  pipes g' = pipes g /\ spawnTimer g' = spawnTimer g /\ score g' = score g.
Proof.
  intros Hplay Hfloor g'. subst g'.
  rewrite (update_playing canvas dt random g Hplay).
  unfold reaches_floor. apply Qle_bool_iff in Hfloor. rewrite Hfloor.
  destruct (hit_floor_frame canvas (birdPhysics dt g)) as (E1 & E2 & E3 & E4 & E5 & E6 & E7).
  destruct (birdPhysics_frame dt g) as (B1 & B2 & B3 & B4 & B5 & B6 & B7).
  rewrite E1, E2, E3, E4, E5, E7, B2, B3, B4, B5. cbn [y vy].
  repeat split; try reflexivity.
  unfold hit_floor. cbn [calls call]. rewrite setBestScore_calls.
  cbn [bestScore score calls set_state set_vy set_y set_bird].
  now rewrite B4, B5, B7.
Qed.


(** A tick that passes the floor test, field by field. *)
Lemma update_after_floor_test (canvas : Canvas) (dt random : Q) (g : Game) :
  state g = PLAYING ->
  reaches_floor canvas dt g = false ->
  let g' := update canvas dt random g in
  let hit :=
    existsb (hitsPipe canvas (currentPipeGap (score g)) (y (bird (birdPhysics dt g))))
            (pipes (before_collision canvas dt random g)) in
  g' = (if hit then hit_pipe (before_collision canvas dt random g)
        else before_collision canvas dt random g) /\
  state g' = (if hit then GAME_OVER else PLAYING) /\
  y (bird g') = y (bird (birdPhysics dt g)) /\
  vy (bird g') = (if hit then 0 else vy (bird (birdPhysics dt g))) /\
  pipes g' = pipes (before_collision canvas dt random g) /\
  spawnTimer g' = spawnTimer (before_collision canvas dt random g) /\
  score g' = score (before_collision canvas dt random g).
Proof.
  intros Hplay Hfloor g' hit. subst g' hit.
  rewrite (update_playing canvas dt random g Hplay), Hfloor, collision_existsb.
  destruct (before_collision_frame canvas dt random g) as (E1 & E2 & _).
  rewrite E2.
  destruct (existsb _ _).
  - destruct (hit_pipe_frame (before_collision canvas dt random g))
      as (H1 & H2 & H3 & H4 & H5 & _).
    rewrite H1, H2, H3, H4, H5, E2. cbn [y vy]. auto 10.
  - rewrite E1, E2, Hplay. auto 10.
Qed.

(** ** C2: the floor *)

(** On a canvas tall enough for the start height to be above the floor
    line, no game the script can reach is PLAYING with the bird at or below
    the floor line: the floor test of the tick that brought it there has
    already ended the run.  The position at or below the floor line that
    ends a run is therefore the one [update] computes inside the tick, in
    its third step, before it tests it. *)
Lemma reachable_playing_above_floor (canvas : Canvas) (g : Game) :
  canvas_height canvas * 0.35 < FLOOR_Y canvas - BIRD_RADIUS ->
  reachable canvas g ->
  state g = PLAYING ->
  y (bird g) < FLOOR_Y canvas - BIRD_RADIUS.
Proof.
  intros Hstart. induction 1 as [best now Hbest | e g Hg IH]; [discriminate|].
  assert (Hprimary : state (onPrimaryAction canvas true g) = PLAYING ->
                     y (bird (onPrimaryAction canvas true g)) < FLOOR_Y canvas - BIRD_RADIUS).
  { unfold onPrimaryAction. cbn [state call].
    destruct (state g) eqn:E; cbn; intros _; auto. }
  destruct e as [code| |now random|]; cbn [handle].
  - destruct code; cbn [onKeydown]; try exact IH; try exact Hprimary.
    discriminate.
  - exact Hprimary.
  - unfold loop. intros H.
    destruct (State_eqb (state (set_last now g)) PLAYING) eqn:E.
    + apply State_eqb_eq in E.
      destruct (reaches_floor canvas (Qmin MAX_DT ((now - last g) / 1000)) (set_last now g))
        eqn:Hfloor.
      * apply Qle_bool_iff in Hfloor.
        destruct (update_reaches_floor canvas _ random _ E Hfloor) as (E1 & _).
        congruence.
      * destruct (update_after_floor_test canvas _ random _ E Hfloor) as (_ & _ & E2 & _).
        rewrite E2. apply Qle_bool_false_iff in Hfloor. exact Hfloor.
    + rewrite update_not_playing in H;
        [|intros C; apply State_eqb_eq in C; congruence].
      cbn [state set_last] in E, H. rewrite H in E. discriminate.
  - exact IH.
Qed.

(** C2.  If during PLAYING the vertical position is at or below the floor
    line [FLOOR_Y - BIRD_RADIUS] when [update(dt)] tests it (after velocity
    and position are integrated over [dt] and the ceiling clamp is applied),
    that call enters GAME_OVER, sets the position to exactly the floor line,
    zeroes the velocity, raises the best score to the score if the score is
    larger (saving it), plays the hit cue, and runs none of the later steps:
    pipes, spawn timer and score are as before the call. *)
Theorem floor_ends_run (canvas : Canvas) (dt random : Q) (g : Game) :
  state g = PLAYING ->
  FLOOR_Y canvas - BIRD_RADIUS <= y (bird (birdPhysics dt g)) ->
  let g' := update canvas dt random g in
  state g' = GAME_OVER /\
  y (bird g') = FLOOR_Y canvas - BIRD_RADIUS /\
  vy (bird g') = 0 /\
  bestScore g' = Z.max (bestScore g) (score g) /\
  calls g' =
    Sound_hit ::
    (if (bestScore g <? score g)%Z then [localStorage_setItem (score g)] else []) ++ calls g /\
  pipes g' = pipes g /\ spawnTimer g' = spawnTimer g /\ score g' = score g.
Proof. exact (update_reaches_floor canvas dt random g). Qed.

Lemma floor_ends_run_witness :
  state aboveFloor = PLAYING /\
  state (update canvas400x600 0.05 0 aboveFloor) = GAME_OVER /\
  y (bird (update canvas400x600 0.05 0 aboveFloor)) = 516 /\
  bestScore (update canvas400x600 0.05 0 aboveFloor) = 3%Z /\
  pipes (update canvas400x600 0.05 0 aboveFloor) = pipes aboveFloor.
Proof.
  assert (Hplay : state aboveFloor = PLAYING) by reflexivity.
  assert (Hfloor : FLOOR_Y canvas400x600 - BIRD_RADIUS <= y (bird (birdPhysics 0.05 aboveFloor)))
    by (vm_compute; discriminate).
  destruct (floor_ends_run canvas400x600 0.05 0 aboveFloor Hplay Hfloor)
    as (E1 & E2 & _ & E4 & _ & E6 & _).
  split; [exact Hplay|]. split; [exact E1|].
  split; [rewrite E2; reflexivity|]. split; [rewrite E4; reflexivity | exact E6].
Defined.

(** ** C7: the bird stays between ceiling and floor *)

(** C7.  Through an [update(dt)] call that starts in PLAYING: if the game
    is still PLAYING afterwards, the vertical position lies between the
    ceiling line [BIRD_RADIUS] and the floor line [FLOOR_Y - BIRD_RADIUS];
    when the integrated position is above the ceiling line (and the ceiling
    line is above the floor line), the position is set to the ceiling line
    and the velocity to zero, and the run goes on unless the collision pass
    finds a pipe; a position at or beyond the floor line leaves PLAYING for
    GAME_OVER. *)
Theorem bird_between_ceiling_and_floor (canvas : Canvas) (dt random : Q) (g : Game) :
  state g = PLAYING ->
  let g' := update canvas dt random g in
  (state g' = PLAYING ->
   BIRD_RADIUS <= y (bird g') /\ y (bird g') <= FLOOR_Y canvas - BIRD_RADIUS) /\
  (y (bird g) + (vy (bird g) + GRAVITY * dt) * dt < BIRD_RADIUS ->
   BIRD_RADIUS < FLOOR_Y canvas - BIRD_RADIUS ->
   y (bird g') = BIRD_RADIUS /\ vy (bird g') = 0 /\
   state g' =
     if existsb (hitsPipe canvas (currentPipeGap (score g)) BIRD_RADIUS) (pipes g')
     then GAME_OVER else PLAYING) /\
  (FLOOR_Y canvas - BIRD_RADIUS <= y (bird (birdPhysics dt g)) -> state g' = GAME_OVER).
Proof.
  intros Hplay g'. subst g'.
  destruct (reaches_floor canvas dt g) eqn:Hfloor.
  - (* the floor branch *)
    pose proof Hfloor as Hle. apply Qle_bool_iff in Hle.
    destruct (update_reaches_floor canvas dt random g Hplay Hle) as (E1 & E2 & E3 & _).
    split; [intros H; congruence|]. split; [|intros _; exact E1].
    intros Hceil Hroom. exfalso.
    rewrite birdPhysics_y in Hle. cbv zeta in Hle.
    apply Qlt_bool_iff in Hceil. rewrite Hceil in Hle. lra.
  - (* past the floor test *)
    destruct (update_after_floor_test canvas dt random g Hplay Hfloor)
      as (_ & E1 & E2 & E3 & E4 & _).
    apply Qle_bool_false_iff in Hfloor.
    split; [|split].
    + intros _. rewrite E2. split; [apply birdPhysics_ceiling | lra].
    + intros Hceil _. apply Qlt_bool_iff in Hceil.
      assert (Hy : y (bird (birdPhysics dt g)) = BIRD_RADIUS).
      { rewrite birdPhysics_y. cbv zeta. now rewrite Hceil. }
      assert (Hv : vy (bird (birdPhysics dt g)) = 0).
      { unfold birdPhysics. cbn [set_vy set_y set_bird bird y vy].
        now rewrite Hceil. }
      rewrite E1, E2, E3, E4, Hy, Hv.
      split; [reflexivity|]. split; [|reflexivity].
      match goal with |- context [existsb ?f ?l] => destruct (existsb f l) end;
        reflexivity.
    + intros Hle. lra.
Qed.

Lemma bird_between_ceiling_and_floor_witness :
  state underCeiling = PLAYING /\
  state (update canvas400x600 0.05 0 underCeiling) = PLAYING /\
  y (bird (update canvas400x600 0.05 0 underCeiling)) = 14 /\
  vy (bird (update canvas400x600 0.05 0 underCeiling)) = 0 /\
  BIRD_RADIUS <= y (bird (update canvas400x600 0.05 0 underCeiling)) /\
  y (bird (update canvas400x600 0.05 0 underCeiling)) <= FLOOR_Y canvas400x600 - BIRD_RADIUS.
Proof.
  assert (Hplay : state underCeiling = PLAYING) by reflexivity.
  destruct (bird_between_ceiling_and_floor canvas400x600 0.05 0 underCeiling Hplay)
    as (Hin & Hceil & _).
  assert (Hstill : state (update canvas400x600 0.05 0 underCeiling) = PLAYING)
    by (vm_compute; reflexivity).
  assert (Habove : y (bird underCeiling) + (vy (bird underCeiling) + GRAVITY * 0.05) * 0.05
                   < BIRD_RADIUS) by (vm_compute; reflexivity).
  assert (Hroom : BIRD_RADIUS < FLOOR_Y canvas400x600 - BIRD_RADIUS)
    by (vm_compute; reflexivity).
  destruct (Hin Hstill) as (Hlo & Hhi).
  destruct (Hceil Habove Hroom) as (Ey & Ev & _).
  split; [exact Hplay|]. split; [exact Hstill|].
  split; [exact Ey|]. split; [exact Ev|]. split; [exact Hlo | exact Hhi].
Defined.

(** ** C10: a hit on a pipe *)

(** C10.  When, in a tick that passed the floor test, the collision pass
    finds the bird overlapping a pipe segment, the call ends in GAME_OVER
    with the velocity zero, and position, score, spawn timer and pipes are
    those the collision pass found: the position is the one the tick
    integrated, strictly above the floor line, not clamped to it. *)
Theorem pipe_hit_ends_run (canvas : Canvas) (dt random : Q) (g : Game) :
  let found := before_collision canvas dt random g in
  let g' := update canvas dt random g in
  state g = PLAYING ->
  reaches_floor canvas dt g = false ->
  existsb (hitsPipe canvas (currentPipeGap (score g)) (y (bird found))) (pipes found) = true ->
  state g' = GAME_OVER /\
  vy (bird g') = 0 /\
  y (bird g') = y (bird found) /\
  score g' = score found /\
  spawnTimer g' = spawnTimer found /\
  pipes g' = pipes found /\
  y (bird g') = y (bird (birdPhysics dt g)) /\
  y (bird g') < FLOOR_Y canvas - BIRD_RADIUS.
Proof.
  intros found g' Hplay Hfloor Hhit. subst found g'.
  destruct (update_after_floor_test canvas dt random g Hplay Hfloor)
    as (_ & E1 & E2 & E3 & E4 & E5 & E6).
  destruct (before_collision_frame canvas dt random g) as (_ & B2 & _).
  rewrite B2 in Hhit. rewrite Hhit in E1, E3.
  apply Qle_bool_false_iff in Hfloor.
  rewrite E1, E2, E3, E4, E5, E6, B2. auto 10.
Qed.

Lemma pipe_hit_ends_run_witness :
  state inTopPipe = PLAYING /\
  state (update canvas400x600 0.05 0 inTopPipe) = GAME_OVER /\
  vy (bird (update canvas400x600 0.05 0 inTopPipe)) = 0 /\
  y (bird (update canvas400x600 0.05 0 inTopPipe)) == 154.5 /\
  score (update canvas400x600 0.05 0 inTopPipe) = 4%Z.
Proof.
  assert (Hplay : state inTopPipe = PLAYING) by reflexivity.
  assert (Hfloor : reaches_floor canvas400x600 0.05 inTopPipe = false)
    by (vm_compute; reflexivity).
  assert (Hhit : existsb (hitsPipe canvas400x600 (currentPipeGap (score inTopPipe))
                                   (y (bird (before_collision canvas400x600 0.05 0 inTopPipe))))
                         (pipes (before_collision canvas400x600 0.05 0 inTopPipe)) = true)
    by (vm_compute; reflexivity).
  destruct (pipe_hit_ends_run canvas400x600 0.05 0 inTopPipe Hplay Hfloor Hhit)
    as (E1 & E2 & E3 & E4 & _).
  split; [exact Hplay|]. split; [exact E1|]. split; [exact E2|].
  split; [rewrite E3; vm_compute; reflexivity | rewrite E4; vm_compute; reflexivity].
Defined.

(** ** C1: which score the difficulty values of a tick come from *)




(** ** C3: the scored flag *)

Lemma pipeTick_Some (pipeSpeed dt : Q) (p p' : Pipe) :
  pipeTick pipeSpeed dt p = Some p' ->
  x p' = x p - pipeSpeed * dt /\ gapY p' = gapY p /\ 0 < x p' + PIPE_WIDTH /\
  scored p' = scored p || Qlt_bool (x p' + PIPE_WIDTH) BIRD_X.
Proof.
  unfold pipeTick, passes. cbn [set_x x scored gapY].
  destruct (Qlt_bool 0 (x p - pipeSpeed * dt + PIPE_WIDTH)) eqn:Ealive; [|discriminate].
  apply Qlt_bool_iff in Ealive.
  destruct (scored p) eqn:Es; cbn [negb andb orb].
  - intros [= <-]. cbn. rewrite ?Es. auto.
  - destruct (Qlt_bool (x p - pipeSpeed * dt + PIPE_WIDTH) BIRD_X) eqn:E;
      intros [= <-]; cbn; rewrite ?E, ?Es; auto.
Qed.

Lemma flips_iff (pipeSpeed dt : Q) (p : Pipe) :
  flips pipeSpeed dt p = true <->
  exists p', pipeTick pipeSpeed dt p = Some p' /\ scored p = false /\ scored p' = true.
Proof.
  unfold flips. destruct (pipeTick pipeSpeed dt p) as [p'|].
  - rewrite andb_true_iff, negb_true_iff. split.
    + intros [H1 H2]. exists p'. auto.
    + intros (q & [= <-] & H1 & H2). auto.
  - split; [discriminate | intros (q & H & _); discriminate].
Qed.

Lemma movePipes_scoring_pipes (pipeSpeed dt : Q) (l : list Pipe) :
  map (fun p => if passes p then set_scored true p else p)
      (filter (fun p => Qlt_bool 0 (x p + PIPE_WIDTH))
              (map (fun p => set_x (x p - pipeSpeed * dt) p) l)) =
  filter_map (pipeTick pipeSpeed dt) l.
Proof.
  induction l as [|p l IH]; [reflexivity|].
  cbn [map filter filter_map]. unfold pipeTick at 1.
  destruct (Qlt_bool 0 (x (set_x (x p - pipeSpeed * dt) p) + PIPE_WIDTH)).
  - cbn [map]. now rewrite IH.
  - exact IH.
Qed.

Lemma movePipes_scoring_count (pipeSpeed dt : Q) (l : list Pipe) :
  length (filter passes
            (filter (fun p => Qlt_bool 0 (x p + PIPE_WIDTH))
                    (map (fun p => set_x (x p - pipeSpeed * dt) p) l))) =
  length (filter (flips pipeSpeed dt) l).
Proof.
  induction l as [|p l IH]; [reflexivity|].
  cbn [map filter]. unfold flips at 1, pipeTick at 1.
  destruct (Qlt_bool 0 (x (set_x (x p - pipeSpeed * dt) p) + PIPE_WIDTH)); [|exact IH].
  cbn [filter].
  destruct (passes (set_x (x p - pipeSpeed * dt) p)) eqn:E.
  - assert (Hs : scored p = false).
    { unfold passes in E. cbn [set_x scored] in E.
      apply andb_true_iff in E. destruct E as [E _].
      now apply negb_true_iff in E. }
    cbn [set_scored scored]. rewrite Hs. cbn [negb andb length]. now rewrite IH.
  - cbn [set_x scored]. rewrite andb_negb_l. exact IH.
Qed.

Lemma before_collision_pipes (canvas : Canvas) (dt random : Q) (g : Game) :
  pipes (before_collision canvas dt random g) =
  filter_map (pipeTick (currentPipeSpeed (score g)) dt) (pipes (after_spawn canvas dt random g)).
Proof.
  unfold before_collision, scoring.
  match goal with |- context [scoringLoop ?l ?h] =>
    pose proof (scoringLoop_pipes l h) as E; destruct (scoringLoop l h) as [ps g'] end.
  cbn [fst] in E. cbn [pipes set_pipes]. rewrite E.
  unfold movePipes. cbn [pipes set_pipes]. apply movePipes_scoring_pipes.
Qed.

Lemma after_spawn_score (canvas : Canvas) (dt random : Q) (g : Game) :
  score (after_spawn canvas dt random g) = score g.
Proof.
  unfold after_spawn.
  match goal with |- context [spawnPipes ?c ?e ?gp ?d ?r ?h] =>
    destruct (spawnPipes_frame c e gp d r h) as (_ & _ & S3 & _) end.
  destruct (birdPhysics_frame dt g) as (_ & _ & _ & B4 & _).
  now rewrite S3, B4.
Qed.

Lemma before_collision_score (canvas : Canvas) (dt random : Q) (g : Game) :
  score (before_collision canvas dt random g) =
  (score g +
   Z.of_nat (length (filter (flips (currentPipeSpeed (score g)) dt)
                            (pipes (after_spawn canvas dt random g)))))%Z.
Proof.
  unfold before_collision, scoring.
  match goal with |- context [scoringLoop ?l ?h] =>
    pose proof (scoringLoop_score l h) as E; destruct (scoringLoop l h) as [ps g'] end.
  cbn [snd] in E. cbn [score set_pipes]. rewrite E.
  unfold movePipes. cbn [pipes score set_pipes].
  now rewrite movePipes_scoring_count, after_spawn_score.
Qed.

(** The pipe the spawn step appends. *)
Lemma after_spawn_pipes (canvas : Canvas) (dt random : Q) (g : Game) :
  pipes (after_spawn canvas dt random g) =
  pipes g ++
  (if Qle_bool (currentSpawnEvery (score g)) (spawnTimer g + dt)
   then [mkPipe (canvas_width canvas + PIPE_WIDTH)
                (rand random
                      (PIPE_MARGIN + currentPipeGap (score g) / 2)
                      (FLOOR_Y canvas - PIPE_MARGIN - currentPipeGap (score g) / 2))
                false]
   else []).
Proof.
  unfold after_spawn, spawnPipes.
  destruct (birdPhysics_frame dt g) as (_ & B2 & B3 & _).
  cbn [spawnTimer set_spawnTimer pipes]. rewrite B3.
  destruct (Qle_bool (currentSpawnEvery (score g)) (spawnTimer g + dt)).
  - cbn [pipes set_pipes set_spawnTimer]. now rewrite B2.
  - cbn [pipes set_spawnTimer]. rewrite B2. now rewrite app_nil_r.
Qed.

Lemma onPrimaryAction_pipes (canvas : Canvas) (g : Game) :
  pipes (onPrimaryAction canvas true g) = if State_eqb (state g) PLAYING then pipes g else [].
Proof. unfold onPrimaryAction. cbn [state call]. destruct (state g); reflexivity. Qed.

(** What one [update] does to the collection and the score, against the
    collection it starts with. *)
Lemma update_pipes_score (canvas : Canvas) (dt random : Q) (g : Game) :
  let pipeSpeed := currentPipeSpeed (score g) in
  let g' := update canvas dt random g in
  if full_tick canvas dt g
  then pipes g' = filter_map (pipeTick pipeSpeed dt) (pipes g ++ spawned canvas dt random g) /\
       score g' =
       (score g + Z.of_nat (length (filter (flips pipeSpeed dt)
                                           (pipes g ++ spawned canvas dt random g))))%Z
  else pipes g' = pipes g /\ score g' = score g.
Proof.
  cbv zeta. unfold full_tick.
  destruct (State_eqb (state g) PLAYING) eqn:Hplay; cbn [andb].
  - apply State_eqb_eq in Hplay.
    destruct (reaches_floor canvas dt g) eqn:Hfloor; cbn [negb].
    + apply Qle_bool_iff in Hfloor.
      destruct (update_reaches_floor canvas dt random g Hplay Hfloor)
        as (_ & _ & _ & _ & _ & E6 & _ & E8). auto.
    + destruct (update_after_floor_test canvas dt random g Hplay Hfloor)
        as (_ & _ & _ & _ & E4 & _ & E6).
      rewrite E4, E6, before_collision_pipes, before_collision_score, after_spawn_pipes.
      unfold spawned. auto.
  - rewrite update_not_playing; [auto|].
    intros H. apply State_eqb_eq in H. congruence.
Qed.

Lemma nth_error_filter_map {A B : Type} (f : A -> option B) (keep : A -> bool)
      (l : list A) (i : nat) (a : A) (b : B) :
  (forall c, keep c = match f c with Some _ => true | None => false end) ->
  nth_error l i = Some a -> f a = Some b ->
  nth_error (filter_map f l) (length (filter keep (firstn i l))) = Some b.
Proof.
  intros Hkeep. revert i. induction l as [|c l IH]; intros i Hi Hf.
  - destruct i; discriminate.
  - destruct i as [|i]; cbn [nth_error firstn filter length filter_map] in *.
    + injection Hi as ->. now rewrite Hf.
    + rewrite (Hkeep c). destruct (f c); cbn [length nth_error]; now apply IH.
Qed.

Lemma firstn_app_left {A : Type} (l l' : list A) (i : nat) (a : A) :
  nth_error l i = Some a -> firstn i (l ++ l') = firstn i l.
Proof.
  intros Hi. assert (Hlt : (i < length l)%nat) by (apply nth_error_Some; congruence).
  rewrite firstn_app. replace (i - length l)%nat with 0%nat by lia.
  cbn [firstn]. apply app_nil_r.
Qed.

Lemma same_index_Some (l : list Pipe) (i j : nat) (p : Pipe) :
  nth_error l i = Some p -> same_index l i = Some j -> j = i.
Proof. unfold same_index. intros ->. congruence. Qed.

(** One pipe through one [update]: where [follow_update] says it is, there
    it is, moved by the tick when the tick was a full one. *)
Lemma follow_update_pipe (canvas : Canvas) (dt random : Q) (g : Game) (i j : nat) (p : Pipe) :
  nth_error (pipes g) i = Some p ->
  follow_update canvas dt g i = Some j ->
  exists p' : Pipe,
    nth_error (pipes (update canvas dt random g)) j = Some p' /\
    (if full_tick canvas dt g
     then pipeTick (currentPipeSpeed (score g)) dt p = Some p' else p' = p) /\
    gapY p' = gapY p /\
    (scored p = true -> scored p' = true) /\
    (scored p = false -> scored p' = true -> x p' + PIPE_WIDTH < BIRD_X).
Proof.
  intros Hi Hfollow. unfold follow_update in Hfollow.
  pose proof (update_pipes_score canvas dt random g) as Htick. cbv zeta in Htick.
  destruct (full_tick canvas dt g).
  - destruct Htick as [Epipes _].
    unfold index_after_filter in Hfollow. rewrite Hi in Hfollow.
    unfold kept in Hfollow at 1.
    destruct (pipeTick (currentPipeSpeed (score g)) dt p) as [p'|] eqn:Ep; [|discriminate].
    injection Hfollow as <-. exists p'. split.
    + rewrite Epipes.
      rewrite <- (firstn_app_left (pipes g) (spawned canvas dt random g) i p Hi).
      apply (nth_error_filter_map _ _ _ _ p); [reflexivity | | exact Ep].
      rewrite nth_error_app1; [exact Hi|]. apply nth_error_Some. congruence.
    + split; [reflexivity|].
      apply pipeTick_Some in Ep. destruct Ep as (_ & Egap & _ & Es).
      split; [exact Egap|]. split.
      * intros Hp. rewrite Es, Hp. reflexivity.
      * intros Hp Hp'. rewrite Es, Hp in Hp'. cbn [orb] in Hp'.
        now apply Qlt_bool_iff.
  - destruct Htick as [Epipes _].
    rewrite (same_index_Some _ _ _ _ Hi Hfollow). exists p. rewrite Epipes.
    split; [exact Hi|]. split; [reflexivity|]. split; [reflexivity|].
    split; [auto|]. congruence.
Qed.

(** One pipe through one event. *)
Lemma follow_pipe (canvas : Canvas) (e : Event) (g : Game) (i j : nat) (p : Pipe) :
  nth_error (pipes g) i = Some p ->
  follow canvas e g i = Some j ->
  exists p' : Pipe,
    nth_error (pipes (handle canvas e g)) j = Some p' /\
    (p' = p \/
     exists now random : Q,
       e = AnimationFrame now random /\
       pipeTick (currentPipeSpeed (score g)) (Qmin MAX_DT ((now - last g) / 1000)) p
       = Some p') /\
    gapY p' = gapY p /\
    (scored p = true -> scored p' = true) /\
    (scored p = false -> scored p' = true ->
     is_frame e /\ x p' + PIPE_WIDTH < BIRD_X).
Proof.
  intros Hi Hfollow.
  assert (Hsame : forall g', pipes g' = pipes g -> same_index (pipes g) i = Some j ->
            exists p' : Pipe,
              nth_error (pipes g') j = Some p' /\
              (p' = p \/
               exists now random : Q,
                 e = AnimationFrame now random /\
                 pipeTick (currentPipeSpeed (score g))
                          (Qmin MAX_DT ((now - last g) / 1000)) p = Some p') /\
              gapY p' = gapY p /\
              (scored p = true -> scored p' = true) /\
              (scored p = false -> scored p' = true ->
               is_frame e /\ x p' + PIPE_WIDTH < BIRD_X)).
  { intros g' Epipes Hj. rewrite (same_index_Some _ _ _ _ Hi Hj). exists p.
    rewrite Epipes. split; [exact Hi|]. split; [now left|]. split; [reflexivity|].
    split; [auto|]. congruence. }
  assert (Hprimary : (if State_eqb (state g) PLAYING then same_index (pipes g) i else None)
                     = Some j ->
            exists p' : Pipe,
              nth_error (pipes (onPrimaryAction canvas true g)) j = Some p' /\
              (p' = p \/
               exists now random : Q,
                 e = AnimationFrame now random /\
                 pipeTick (currentPipeSpeed (score g))
                          (Qmin MAX_DT ((now - last g) / 1000)) p = Some p') /\
              gapY p' = gapY p /\
              (scored p = true -> scored p' = true) /\
              (scored p = false -> scored p' = true ->
               is_frame e /\ x p' + PIPE_WIDTH < BIRD_X)).
  { intros Hj. destruct (State_eqb (state g) PLAYING) eqn:Hplay; [|discriminate].
    apply Hsame; [|exact Hj]. rewrite onPrimaryAction_pipes. now rewrite Hplay. }
  destruct e as [[| | | |]| |now random|]; cbn [handle follow onKeydown] in *.
  - exact (Hprimary Hfollow).
  - discriminate.
  - apply Hsame; [reflexivity | exact Hfollow].
  - apply Hsame; [reflexivity | exact Hfollow].
  - apply Hsame; [reflexivity | exact Hfollow].
  - exact (Hprimary Hfollow).
  - unfold loop.
    destruct (follow_update_pipe canvas (Qmin MAX_DT ((now - last g) / 1000)) random
                                 (set_last now g) i j p Hi Hfollow)
      as (p' & H1 & Hid & H2 & H3 & H4).
    exists p'. cbn [is_frame]. split; [exact H1|]. split.
    { destruct (full_tick canvas (Qmin MAX_DT ((now - last g) / 1000)) (set_last now g));
        [right; exists now, random; split; [reflexivity | exact Hid] | now left]. }
    repeat split; auto.
  - apply Hsame; [reflexivity | exact Hfollow].
Qed.

(** A pipe that [follow] loses is no longer in the collection: the filter
    of a full tick has dropped it, or the run was reset. *)
Lemma follow_None (canvas : Canvas) (e : Event) (g : Game) (i : nat) (p : Pipe) :
  nth_error (pipes g) i = Some p ->
  follow canvas e g i = None ->
  pipes (handle canvas e g) = [] \/
  exists now random : Q,
    e = AnimationFrame now random /\
    full_tick canvas (Qmin MAX_DT ((now - last g) / 1000)) (set_last now g) = true /\
    pipeTick (currentPipeSpeed (score g)) (Qmin MAX_DT ((now - last g) / 1000)) p = None.
Proof.
  intros Hi Hfollow.
  assert (Hsame : same_index (pipes g) i <> None) by (unfold same_index; now rewrite Hi).
  assert (Hprimary : (if State_eqb (state g) PLAYING then same_index (pipes g) i else None)
                     = None -> pipes (onPrimaryAction canvas true g) = []).
  { intros H. rewrite onPrimaryAction_pipes.
    destruct (State_eqb (state g) PLAYING); [contradiction | reflexivity]. }
  destruct e as [[| | | |]| |now random|]; cbn [handle follow onKeydown] in *.
  - left. exact (Hprimary Hfollow).
  - left. reflexivity.
  - contradiction.
  - contradiction.
  - contradiction.
  - left. exact (Hprimary Hfollow).
  - right. exists now, random. split; [reflexivity|].
    unfold follow_update in Hfollow.
    destruct (full_tick canvas (Qmin MAX_DT ((now - last g) / 1000)) (set_last now g));
      [|contradiction].
    split; [reflexivity|].
    unfold index_after_filter in Hfollow. cbn [pipes set_last score] in Hfollow.
    rewrite Hi in Hfollow. unfold kept in Hfollow at 1.
    destruct (pipeTick (currentPipeSpeed (score g)) (Qmin MAX_DT ((now - last g) / 1000)) p);
      [discriminate | reflexivity].
  - contradiction.
Qed.

Lemma history_scored (canvas : Canvas) (es : list Event) (g : Game) (i : nat) (p : Pipe) :
  nth_error (pipes g) i = Some p -> scored p = true ->
  exists b : nat, history canvas es g i = repeat true b.
Proof.
  revert g i p. induction es as [|e es IH]; intros g i p Hi Hp; cbn [history]; rewrite Hi, Hp.
  - now exists 1%nat.
  - destruct (follow canvas e g i) as [j|] eqn:Hj; [|now exists 1%nat].
    destruct (follow_pipe canvas e g i j p Hi Hj) as (p' & Hj' & _ & _ & Hkeep & _).
    destruct (IH (handle canvas e g) j p' Hj' (Hkeep Hp)) as [b Hb].
    exists (S b). now rewrite Hb.
Qed.

Lemma history_settles (canvas : Canvas) (es : list Event) (g : Game) (i : nat) :
  exists a b : nat, history canvas es g i = repeat false a ++ repeat true b.
Proof.
  revert g i. induction es as [|e es IH]; intros g i.
  - cbn [history]. destruct (nth_error (pipes g) i) as [p|]; [|now exists 0%nat, 0%nat].
    destruct (scored p); [now exists 0%nat, 1%nat | now exists 1%nat, 0%nat].
  - destruct (nth_error (pipes g) i) as [p|] eqn:Hi;
      [|cbn [history]; rewrite Hi; now exists 0%nat, 0%nat].
    destruct (scored p) eqn:Hp.
    + destruct (history_scored canvas (e :: es) g i p Hi Hp) as [b Hb].
      exists 0%nat, b. exact Hb.
    + cbn [history]. rewrite Hi, Hp.
      destruct (follow canvas e g i) as [j|]; [|now exists 1%nat, 0%nat].
      destruct (IH (handle canvas e g) j) as (a & b & Hab).
      exists (S a), b. now rewrite Hab.
Qed.

(** C3.  An [update(dt)] call either leaves pipes and score alone (outside
    PLAYING, or when the bird reaches the floor) or turns the collection
    into the pipes it had, followed by the one just spawned, each moved,
    dropped when off the canvas and flagged when passed, with the score
    raised by exactly the number of flags that went from false to true.
    Through any event, a pipe that stays in the collection keeps a flag
    that is set, and its flag goes from false to true only in a frame in
    which its trailing edge [x + PIPE_WIDTH], after the move, is strictly
    left of [BIRD_X]; a pipe leaves the collection only by the filter of a
    tick or by the reset of the run.  Hence, over any events, the flag of a
    pipe is false for a while and then true for as long as the pipe is in
    the collection: it changes at most once and is never reset. *)
Theorem scored_flag_set_once (canvas : Canvas) (dt random : Q) (g : Game) :
  let pipeSpeed := currentPipeSpeed (score g) in
  let g' := update canvas dt random g in
  (if State_eqb (state g) PLAYING && negb (reaches_floor canvas dt g)
   then pipes g' = filter_map (pipeTick pipeSpeed dt) (pipes g ++ spawned canvas dt random g) /\
        score g' =
        (score g + Z.of_nat (length (filter (flips pipeSpeed dt)
                                            (pipes g ++ spawned canvas dt random g))))%Z
   else pipes g' = pipes g /\ score g' = score g) /\
  (forall (e : Event) (i j : nat) (p : Pipe),
      nth_error (pipes g) i = Some p ->
      follow canvas e g i = Some j ->
      exists p' : Pipe,
        nth_error (pipes (handle canvas e g)) j = Some p' /\
        (p' = p \/
         exists now random' : Q,
           e = AnimationFrame now random' /\
           pipeTick pipeSpeed (Qmin MAX_DT ((now - last g) / 1000)) p = Some p') /\
        gapY p' = gapY p /\
        (scored p = true -> scored p' = true) /\
        (scored p = false -> scored p' = true ->
         is_frame e /\ x p' + PIPE_WIDTH < BIRD_X)) /\
  (forall (e : Event) (i : nat) (p : Pipe),
      nth_error (pipes g) i = Some p ->
      follow canvas e g i = None ->
      pipes (handle canvas e g) = [] \/
      exists now random' : Q,
        e = AnimationFrame now random' /\
        full_tick canvas (Qmin MAX_DT ((now - last g) / 1000)) (set_last now g) = true /\
        pipeTick pipeSpeed (Qmin MAX_DT ((now - last g) / 1000)) p = None) /\
  (forall (es : list Event) (i : nat),
      exists a b : nat, history canvas es g i = repeat false a ++ repeat true b).
Proof.
  intros pipeSpeed g'. subst pipeSpeed g'.
  split; [|split; [|split]].
  - exact (update_pipes_score canvas dt random g).
  - intros e i j p. apply follow_pipe.
  - intros e i p. apply follow_None.
  - intros es i. apply history_settles.
Qed.

Lemma scored_flag_set_once_witness :
  pipes besideCorner = [mkPipe 21 300 false] /\
  score besideCorner = 0%Z /\
  map scored (pipes (update canvas400x600 0.05 0 besideCorner)) = [true] /\
  score (update canvas400x600 0.05 0 besideCorner) = 1%Z /\
  follow canvas400x600 (AnimationFrame 50 0) besideCorner 0 = Some 0%nat /\
  (exists p' : Pipe,
      nth_error (pipes (handle canvas400x600 (AnimationFrame 50 0) besideCorner)) 0 = Some p' /\
      (p' = mkPipe 21 300 false \/
       exists now random' : Q,
         AnimationFrame 50 0 = AnimationFrame now random' /\
         pipeTick (currentPipeSpeed (score besideCorner))
                  (Qmin MAX_DT ((now - last besideCorner) / 1000)) (mkPipe 21 300 false)
         = Some p') /\
      gapY p' = 300 /\
      (false = true -> scored p' = true) /\
      (false = false -> scored p' = true ->
       is_frame (AnimationFrame 50 0) /\ x p' + PIPE_WIDTH < BIRD_X)) /\
  score (run canvas400x600 threeFrames besideCorner) = 1%Z /\
  history canvas400x600 threeFrames besideCorner 0 = [false; true; true; true] /\
  exists a b : nat,
    history canvas400x600 threeFrames besideCorner 0 = repeat false a ++ repeat true b.
Proof.
  destruct (scored_flag_set_once canvas400x600 0.05 0 besideCorner)
    as (Htick & Hstep & _ & Honce).
  cbv zeta in Htick.
  assert (Hfull : State_eqb (state besideCorner) PLAYING
                  && negb (reaches_floor canvas400x600 0.05 besideCorner) = true)
    by (vm_compute; reflexivity).
  rewrite Hfull in Htick. destruct Htick as (Ep & Es).
  split; [reflexivity|]. split; [reflexivity|].
  split; [rewrite Ep; vm_compute; reflexivity|].
  split; [rewrite Es; vm_compute; reflexivity|].
  split; [vm_compute; reflexivity|].
  split; [exact (Hstep (AnimationFrame 50 0) 0%nat 0%nat (mkPipe 21 300 false)
                       eq_refl eq_refl)|].
  split; [vm_compute; reflexivity|].
  split; [vm_compute; reflexivity|].
  exact (Honce threeFrames 0%nat).
Defined.

(** ** C4: pipes that have left the canvas *)

Lemma currentPipeSpeed_bounds (s : Z) :
  BASE_PIPE_SPEED <= currentPipeSpeed s /\ currentPipeSpeed s <= MAX_PIPE_SPEED.
Proof. apply clamp_bounds. vm_compute. discriminate. Qed.

(** Within one capped time step a pipe moves left by at most 18. *)
Lemma pipe_travel_bound (s : Z) (dt : Q) : dt <= MAX_DT -> currentPipeSpeed s * dt <= 18.
Proof.
  intros Hdt. destruct (currentPipeSpeed_bounds s) as [Hlo Hhi].
  unfold BASE_PIPE_SPEED, MAX_PIPE_SPEED, MAX_DT in *.
  destruct (Qlt_le_dec dt 0) as [Hneg|Hpos].
  - assert (H : 0 <= currentPipeSpeed s * (- dt)) by (apply Qmult_le_0_compat; lra).
    lra.
  - assert (H : 0 <= (360 - currentPipeSpeed s) * dt) by (apply Qmult_le_0_compat; lra).
    lra.
Qed.

Lemma canvas_width_nonneg (canvas : Canvas) : 0 <= canvas_width canvas.
Proof.
  unfold canvas_width. change 0 with (inject_Z 0). rewrite <- Zle_Qle. lia.
Qed.

Lemma filter_map_app {A B : Type} (f : A -> option B) (l l' : list A) :
  filter_map f (l ++ l') = filter_map f l ++ filter_map f l'.
Proof.
  induction l as [|a l IH]; [reflexivity|].
  cbn [app filter_map]. destruct (f a); cbn [app]; now rewrite IH.
Qed.

Lemma filter_map_on_canvas (pipeSpeed dt : Q) (l : list Pipe) :
  Forall on_canvas (filter_map (pipeTick pipeSpeed dt) l).
Proof.
  induction l as [|p l IH]; cbn [filter_map]; [constructor|].
  destruct (pipeTick pipeSpeed dt p) as [p'|] eqn:E; [|exact IH].
  constructor; [|exact IH]. apply pipeTick_Some in E. unfold on_canvas. tauto.
Qed.

Lemma update_on_canvas (canvas : Canvas) (dt random : Q) (g : Game) :
  Forall on_canvas (pipes g) -> Forall on_canvas (pipes (update canvas dt random g)).
Proof.
  intros Hg.
  destruct (State_eqb (state g) PLAYING) eqn:Hplay.
  - apply State_eqb_eq in Hplay.
    destruct (reaches_floor canvas dt g) eqn:Hfloor.
    + apply Qle_bool_iff in Hfloor.
      destruct (update_reaches_floor canvas dt random g Hplay Hfloor)
        as (_ & _ & _ & _ & _ & E6 & _). now rewrite E6.
    + destruct (update_after_floor_test canvas dt random g Hplay Hfloor)
        as (_ & _ & _ & _ & E4 & _).
      rewrite E4, before_collision_pipes. apply filter_map_on_canvas.
  - rewrite update_not_playing; [exact Hg|].
    intros H. apply State_eqb_eq in H. congruence.
Qed.

Lemma handle_on_canvas (canvas : Canvas) (e : Event) (g : Game) :
  Forall on_canvas (pipes g) -> Forall on_canvas (pipes (handle canvas e g)).
Proof.
  intros Hg. destruct e as [code| |now random|]; cbn [handle].
  - destruct code; cbn [onKeydown]; try exact Hg.
    + rewrite onPrimaryAction_pipes. destruct (State_eqb _ _); [exact Hg | constructor].
    + constructor.
  - rewrite onPrimaryAction_pipes. destruct (State_eqb _ _); [exact Hg | constructor].
  - unfold loop. apply update_on_canvas. exact Hg.
  - exact Hg.
Qed.

Lemma reachable_on_canvas (canvas : Canvas) (g : Game) :
  reachable canvas g -> Forall on_canvas (pipes g).
Proof.
  induction 1 as [best now Hbest | e g Hg IH].
  - constructor.
  - apply handle_on_canvas. exact IH.
Qed.

Lemma reachable_run (canvas : Canvas) (es : list Event) (g : Game) :
  reachable canvas g -> reachable canvas (run canvas es g).
Proof.
  revert g. induction es as [|e es IH]; intros g Hg; [exact Hg|].
  unfold run. cbn [fold_left]. apply IH. now constructor.
Qed.

(** The pipe appended by the spawn step comes through the move of the same
    tick: still on the canvas, not yet flagged. *)
Lemma pipeTick_spawned (canvas : Canvas) (s : Z) (dt gy : Q) :
  dt <= MAX_DT ->
  pipeTick (currentPipeSpeed s) dt (mkPipe (canvas_width canvas + PIPE_WIDTH) gy false) =
  Some (mkPipe (canvas_width canvas + PIPE_WIDTH - currentPipeSpeed s * dt) gy false).
Proof.
  intros Hdt. pose proof (pipe_travel_bound s dt Hdt) as Hmove.
  pose proof (canvas_width_nonneg canvas) as Hw.
  unfold pipeTick, passes. cbn [set_x x gapY scored negb andb].
  assert (E1 : Qlt_bool 0 (canvas_width canvas + PIPE_WIDTH - currentPipeSpeed s * dt
                           + PIPE_WIDTH) = true).
  { apply Qlt_bool_iff. unfold PIPE_WIDTH. lra. }
  assert (E2 : Qlt_bool (canvas_width canvas + PIPE_WIDTH - currentPipeSpeed s * dt
                         + PIPE_WIDTH) BIRD_X = false).
  { apply Qlt_bool_false_iff. unfold PIPE_WIDTH, BIRD_X. lra. }
  now rewrite E1, E2.
Qed.

(** C4.  In every game the script can reach, after an [update(dt)] call
    every pipe in the collection has its trailing edge [x + PIPE_WIDTH]
    strictly right of 0; and with [dt] at most 0.05, a tick that spawns a
    pipe keeps it: the collection ends with the new pipe, moved once and
    not flagged. *)
Theorem pruned_pipes_gone_spawned_pipe_kept (canvas : Canvas) (dt random : Q) (g : Game) :
  reachable canvas g ->
  let g' := update canvas dt random g in
  let pipeSpeed := currentPipeSpeed (score g) in
  let pipeGap := currentPipeGap (score g) in
  Forall (fun p => 0 < x p + PIPE_WIDTH) (pipes g') /\
  (dt <= MAX_DT ->
   state g = PLAYING ->
   reaches_floor canvas dt g = false ->
   currentSpawnEvery (score g) <= spawnTimer g + dt ->
   pipes g' =
   filter_map (pipeTick pipeSpeed dt) (pipes g) ++
   [mkPipe (canvas_width canvas + PIPE_WIDTH - pipeSpeed * dt)
           (rand random (PIPE_MARGIN + pipeGap / 2) (FLOOR_Y canvas - PIPE_MARGIN - pipeGap / 2))
           false]).
Proof.
  intros Hreach g' pipeSpeed pipeGap. subst g' pipeSpeed pipeGap. split.
  - apply (update_on_canvas canvas dt random g).
    exact (reachable_on_canvas canvas g Hreach).
  - intros Hdt Hplay Hfloor Hspawn.
    destruct (update_after_floor_test canvas dt random g Hplay Hfloor)
      as (_ & _ & _ & _ & E4 & _).
    rewrite E4, before_collision_pipes, after_spawn_pipes.
    apply Qle_bool_iff in Hspawn. rewrite Hspawn.
    rewrite filter_map_app. cbn [filter_map].
    now rewrite (pipeTick_spawned canvas (score g) dt _ Hdt).
Qed.

Lemma pruned_pipes_gone_spawned_pipe_kept_witness :
  reachable canvas400x600 beforeFirstSpawn /\
  pipes beforeFirstSpawn = [] /\
  Forall (fun p => 0 < x p + PIPE_WIDTH)
         (pipes (update canvas400x600 0.05 0.5 beforeFirstSpawn)) /\
  map (fun p => (Qred (x p), Qred (gapY p), scored p))
      (pipes (update canvas400x600 0.05 0.5 beforeFirstSpawn))
  = [(459, 265, false)].
Proof.
  assert (Hbest : (0 <= 0)%Z) by lia.
  assert (Hreach : reachable canvas400x600 beforeFirstSpawn).
  { apply reachable_run. apply reachable_initial. exact Hbest. }
  destruct (pruned_pipes_gone_spawned_pipe_kept canvas400x600 0.05 0.5 beforeFirstSpawn Hreach)
    as (Hon & Hkept).
  cbv zeta in Hkept.
  assert (Hdt : 0.05 <= MAX_DT) by (vm_compute; discriminate).
  assert (Hplay : state beforeFirstSpawn = PLAYING) by (vm_compute; reflexivity).
  assert (Hfloor : reaches_floor canvas400x600 0.05 beforeFirstSpawn = false)
    by (vm_compute; reflexivity).
  assert (Hspawn : currentSpawnEvery (score beforeFirstSpawn)
                   <= spawnTimer beforeFirstSpawn + 0.05)
    by (vm_compute; discriminate).
  specialize (Hkept Hdt Hplay Hfloor Hspawn).
  split; [exact Hreach|]. split; [vm_compute; reflexivity|]. split; [exact Hon|].
  rewrite Hkept. vm_compute. reflexivity.
Defined.

(** ** C6: the best score *)

Lemma scoring_bestScore (g : Game) :
  bestScore (scoring g) = bestScore (snd (scoringLoop (pipes g) g)) /\
  score (scoring g) = score (snd (scoringLoop (pipes g) g)).
Proof. unfold scoring. now destruct (scoringLoop (pipes g) g). Qed.

Lemma before_scoring_frame (canvas : Canvas) (dt random : Q) (g : Game) :
  let h := movePipes (currentPipeSpeed (score g)) dt (after_spawn canvas dt random g) in
  score h = score g /\ bestScore h = bestScore g.
Proof.
  cbv zeta. unfold movePipes. cbn [score bestScore set_pipes].
  rewrite after_spawn_score. split; [reflexivity|].
  unfold after_spawn.
  match goal with |- context [spawnPipes ?c ?e ?gp ?d ?r ?h] =>
    destruct (spawnPipes_frame c e gp d r h) as (_ & _ & _ & S4 & _) end.
  destruct (birdPhysics_frame dt g) as (_ & _ & _ & _ & B5 & _).
  now rewrite S4, B5.
Qed.

Lemma update_bestScore_le (canvas : Canvas) (dt random : Q) (g : Game) :
  (bestScore g <= bestScore (update canvas dt random g))%Z.
Proof.
  destruct (State_eqb (state g) PLAYING) eqn:Hplay.
  - apply State_eqb_eq in Hplay.
    destruct (reaches_floor canvas dt g) eqn:Hfloor.
    + apply Qle_bool_iff in Hfloor.
      destruct (update_reaches_floor canvas dt random g Hplay Hfloor) as (_ & _ & _ & E4 & _).
      rewrite E4. lia.
    + destruct (update_after_floor_test canvas dt random g Hplay Hfloor) as (E & _).
      assert (Hb : (bestScore g <= bestScore (before_collision canvas dt random g))%Z).
      { unfold before_collision.
        match goal with |- context [scoring ?h] =>
          destruct (scoring_bestScore h) as (Eb & _);
          pose proof (scoringLoop_bestScore_le (pipes h) h) as Hle end.
        destruct (before_scoring_frame canvas dt random g) as (_ & Eh).
        rewrite Eb. rewrite Eh in Hle. exact Hle. }
      rewrite E. destruct (existsb _ _); [|exact Hb].
      destruct (hit_pipe_frame (before_collision canvas dt random g))
        as (_ & _ & _ & _ & _ & _ & E7).
      rewrite E7. lia.
  - rewrite update_not_playing; [lia|].
    intros H. apply State_eqb_eq in H. congruence.
Qed.

Lemma update_tracks (canvas : Canvas) (best0 : Z) (dt random : Q) (g : Game) :
  tracks best0 g -> tracks best0 (update canvas dt random g).
Proof.
  intros Hg.
  destruct (State_eqb (state g) PLAYING) eqn:Hplay.
  - apply State_eqb_eq in Hplay.
    destruct (reaches_floor canvas dt g) eqn:Hfloor.
    + apply Qle_bool_iff in Hfloor.
      destruct (update_reaches_floor canvas dt random g Hplay Hfloor)
        as (_ & _ & _ & E4 & _ & _ & _ & E8).
      unfold tracks in *. rewrite E4, E8. lia.
    + destruct (update_after_floor_test canvas dt random g Hplay Hfloor) as (E & _).
      assert (Hb : tracks best0 (before_collision canvas dt random g)).
      { unfold before_collision.
        match goal with |- context [scoring ?h] =>
          destruct (scoring_bestScore h) as (Eb & Es);
          pose proof (scoringLoop_tracks best0 (pipes h) h) as Hle end.
        destruct (before_scoring_frame canvas dt random g) as (Eh1 & Eh2).
        unfold tracks in *. rewrite Eb, Es. apply Hle. now rewrite Eh1, Eh2. }
      rewrite E. destruct (existsb _ _); [|exact Hb].
      destruct (hit_pipe_frame (before_collision canvas dt random g))
        as (_ & _ & _ & _ & E5 & _ & E7).
      unfold tracks in *. rewrite E7, E5. lia.
  - rewrite update_not_playing; [exact Hg|].
    intros H. apply State_eqb_eq in H. congruence.
Qed.

Lemma onPrimaryAction_bestScore (canvas : Canvas) (g : Game) :
  bestScore (onPrimaryAction canvas true g) = bestScore g.
Proof. unfold onPrimaryAction. cbn [state call]. destruct (state g); reflexivity. Qed.

Lemma handle_bestScore_le (canvas : Canvas) (e : Event) (g : Game) :
  e <> Keydown KeyC -> (bestScore g <= bestScore (handle canvas e g))%Z.
Proof.
  intros He. destruct e as [code| |now random|]; cbn [handle].
  - destruct code; cbn [onKeydown]; try (cbn; lia).
    + rewrite onPrimaryAction_bestScore. lia.
    + congruence.
  - rewrite onPrimaryAction_bestScore. lia.
  - unfold loop. apply (update_bestScore_le canvas _ random (set_last now g)).
  - cbn. lia.
Qed.

Lemma handle_tracks (canvas : Canvas) (best0 : Z) (e : Event) (g : Game) :
  in_run g e -> tracks best0 g -> tracks best0 (handle canvas e g).
Proof.
  intros He Hg. destruct e as [code| |now random|]; cbn [handle in_run] in *.
  - destruct code; cbn [onKeydown]; try contradiction; try exact Hg.
    unfold onPrimaryAction. cbn [state call]. rewrite He. exact Hg.
  - unfold onPrimaryAction. cbn [state call]. rewrite He. exact Hg.
  - unfold loop. apply update_tracks. exact Hg.
  - exact Hg.
Qed.

Lemma run_cons (canvas : Canvas) (e : Event) (es : list Event) (g : Game) :
  run canvas (e :: es) g = run canvas es (handle canvas e g).
Proof. reflexivity. Qed.

(** C6, as stated, at a game the script reaches: with a best score of 5
    loaded at start, the C key sets it to 0. *)
Lemma clear_best_lowers_counterexample :
  (bestScore (run canvas400x600 [Keydown KeyC] (initial canvas400x600 5 0))
   < bestScore (initial canvas400x600 5 0))%Z.
Proof. vm_compute. reflexivity. Qed.

(** C6, amended.  Across any sequence of events that does not contain the
    clear-best command, the best score never decreases; [setBestScore]
    leaves the larger of the stored value and its argument; and over the
    events of one run, started with the score not above the best score, the
    best score is the larger of its value at the start of the run and the
    score. *)
Theorem bestScore_never_decreases_without_clear (canvas : Canvas) (es : list Event) (g : Game) :
  ~ In (Keydown KeyC) es ->
  (bestScore g <= bestScore (run canvas es g))%Z /\
  (forall newValue : Z, bestScore (setBestScore newValue g) = Z.max (bestScore g) newValue) /\
  ((score g <= bestScore g)%Z ->
   within_run canvas es g ->
   bestScore (run canvas es g) = Z.max (bestScore g) (score (run canvas es g))).
Proof.
  intros Hclear. split; [|split].
  - revert g. induction es as [|e es IH]; intros g; [cbn; lia|].
    rewrite run_cons.
    assert (He : e <> Keydown KeyC) by (intros ->; apply Hclear; now left).
    assert (Hes : ~ In (Keydown KeyC) es) by (intros H; apply Hclear; now right).
    pose proof (handle_bestScore_le canvas e g He).
    specialize (IH Hes (handle canvas e g)). lia.
  - intros newValue. apply setBestScore_bestScore.
  - intros Hstart Hrun.
    assert (Hg : tracks (bestScore g) g) by (unfold tracks; lia).
    generalize dependent (bestScore g). intros best0 _ Hg. clear Hclear.
    revert g Hrun Hg. induction es as [|e es IH]; intros g Hrun Hg; [exact Hg|].
    rewrite run_cons. destruct Hrun as [He Hes].
    apply IH; [exact Hes|]. now apply handle_tracks.
Qed.

Lemma bestScore_never_decreases_without_clear_witness :
  ~ In (Keydown KeyC) scoringFrames /\
  within_run canvas400x600 scoringFrames besideCorner /\
  bestScore besideCorner = 0%Z /\
  score (run canvas400x600 scoringFrames besideCorner) = 1%Z /\
  bestScore (run canvas400x600 scoringFrames besideCorner) = 1%Z.
Proof.
  assert (Hclear : ~ In (Keydown KeyC) scoringFrames).
  { cbn. intros [H|[H|[H|[]]]]; discriminate. }
  assert (Hrun : within_run canvas400x600 scoringFrames besideCorner) by (cbn; tauto).
  assert (Hstart : (score besideCorner <= bestScore besideCorner)%Z) by (cbn; lia).
  destruct (bestScore_never_decreases_without_clear canvas400x600 scoringFrames besideCorner
              Hclear) as (_ & _ & Hmax).
  specialize (Hmax Hstart Hrun).
  assert (Es : score (run canvas400x600 scoringFrames besideCorner) = 1%Z)
    by (vm_compute; reflexivity).
  split; [exact Hclear|]. split; [exact Hrun|]. split; [reflexivity|].
  split; [exact Es|]. rewrite Hmax, Es. reflexivity.
Defined.

(** ** C8: reset *)

(** C8.  Reset is idempotent, from START as from any phase: applied once
    or any number of times in succession it gives the same game, with the
    bird at the start height [canvas.height * 0.35] and at rest, no pipes,
    spawn timer 0, score 0, phase START. *)
Theorem goToStart_idempotent (canvas : Canvas) (n : nat) (g : Game) :
  Nat.iter (S n) (goToStart canvas) g = goToStart canvas g /\
  state (goToStart canvas g) = START /\
  bird (goToStart canvas g) = mkBird (canvas_height canvas * 0.35) 0 /\
  pipes (goToStart canvas g) = [] /\
  spawnTimer (goToStart canvas g) = 0 /\
  score (goToStart canvas g) = 0%Z.
Proof.
  split; [|cbn; auto 10].
  induction n as [|n IH]; [reflexivity|].
  change (Nat.iter (S (S n)) (goToStart canvas) g)
    with (goToStart canvas (Nat.iter (S n) (goToStart canvas) g)).
  rewrite IH. reflexivity.
Qed.

(** In a game the script can reach, START means the reset state: a reset
    from START changes nothing at all. *)
Lemma reachable_START_is_reset (canvas : Canvas) (g : Game) :
  reachable canvas g -> state g = START -> goToStart canvas g = g.
Proof.
  induction 1 as [best now Hbest | e g Hg IH]; [reflexivity|].
  destruct e as [code| |now random|]; cbn [handle].
  - destruct code; cbn [onKeydown].
    + unfold onPrimaryAction. cbn [state call].
      destruct (state g) eqn:E; cbn; intros H; congruence.
    + intros _. reflexivity.
    + cbn [state set_bestScore call]. intros H. specialize (IH H).
      transitivity (set_bestScore 0 (call localStorage_removeItem (goToStart canvas g)));
        [reflexivity | now rewrite IH].
    + cbn [state call]. intros H. specialize (IH H).
      transitivity (call Sound_toggleMute (goToStart canvas g));
        [reflexivity | now rewrite IH].
    + exact IH.
  - unfold onPrimaryAction. cbn [state call].
      destruct (state g) eqn:E; cbn; intros H; congruence.
  - unfold loop. intros H.
    destruct (State_eqb (state (set_last now g)) PLAYING) eqn:E.
    + apply State_eqb_eq in E.
      destruct (reaches_floor canvas (Qmin MAX_DT ((now - last g) / 1000)) (set_last now g))
        eqn:Hfloor.
      * apply Qle_bool_iff in Hfloor.
        destruct (update_reaches_floor canvas _ random _ E Hfloor) as (E1 & _).
        congruence.
      * destruct (update_after_floor_test canvas _ random _ E Hfloor) as (_ & E1 & _).
        rewrite E1 in H. destruct (existsb _ _); discriminate.
    + rewrite update_not_playing in *;
        try (intros C; apply State_eqb_eq in C; congruence).
      cbn [state set_last] in H. specialize (IH H).
      transitivity (set_last now (goToStart canvas g));
        [reflexivity | now rewrite IH].
  - unfold onPrimaryAction. cbn [state call]. intros H. specialize (IH H).
    transitivity (call Sound_unlock (goToStart canvas g)); [reflexivity | now rewrite IH].
Qed.

(** ** C9: a primary action while playing *)

(** C9.  In PLAYING, a primary action sets the vertical velocity to the
    jump velocity, -550, whatever it was, plays the jump cue, and leaves
    position, score, spawn timer, pipes, phase, best score and frame time
    as they were.  The awaited unlock fulfils: PLAYING is entered only by
    the body of [onPrimaryAction], after an unlock that has fulfilled and
    left an audio context behind, and with a context [unlock] does not
    reject. *)
Theorem onPrimaryAction_playing (canvas : Canvas) (g : Game) :
  state g = PLAYING ->
  let g' := onPrimaryAction canvas true g in
  vy (bird g') = -550 /\
  y (bird g') = y (bird g) /\
  score g' = score g /\
  spawnTimer g' = spawnTimer g /\
  pipes g' = pipes g /\
  state g' = PLAYING /\
  bestScore g' = bestScore g /\
  last g' = last g /\
  calls g' = Sound_jump :: Sound_unlock :: calls g.
Proof.
  intros Hplay g'. subst g'. unfold onPrimaryAction. cbn [state call].
  rewrite Hplay. cbn. auto 10.
Qed.

Lemma onPrimaryAction_playing_witness :
  state midRun = PLAYING /\
  vy (bird midRun) = 120 /\
  vy (bird (onPrimaryAction canvas400x600 true midRun)) = -550 /\
  y (bird (onPrimaryAction canvas400x600 true midRun)) = 300 /\
  pipes (onPrimaryAction canvas400x600 true midRun) = [mkPipe 250 300 false].
Proof.
  assert (Hplay : state midRun = PLAYING) by reflexivity.
  destruct (onPrimaryAction_playing canvas400x600 midRun Hplay)
    as (E1 & E2 & _ & _ & E5 & _).
  split; [exact Hplay|]. split; [reflexivity|]. split; [exact E1|].
  split; [rewrite E2; reflexivity | rewrite E5; reflexivity].
Defined.

(** * Further properties of the script *)

(** ** The circle-rectangle test *)

Lemma clamp_cases (v lo hi : Q) :
  lo <= hi ->
  (v <= lo /\ clamp v lo hi == lo) \/
  (lo <= v /\ v <= hi /\ clamp v lo hi == v) \/
  (hi <= v /\ clamp v lo hi == hi).
Proof.
  intros H. unfold clamp.
  destruct (Q.min_spec v hi) as [[H1 E1]|[H1 E1]];
    destruct (Q.max_spec lo (Qmin v hi)) as [[H2 E2]|[H2 E2]];
    revert H2 E2; generalize (Qmax lo (Qmin v hi));
    revert E1; generalize (Qmin v hi); intros m E1 M H2 E2.
  - right; left. repeat split; lra.
  - left. split; lra.
  - right; right. split; lra.
  - right; right. split; lra.
Qed.

Lemma square_nonneg (a : Q) : 0 <= a * a.
Proof. nra. Qed.

(** Among the points of an interval, the clamped coordinate is nearest. *)
Lemma clamp_closest (c lo hi p : Q) :
  lo <= hi -> lo <= p -> p <= hi ->
  (c - clamp c lo hi) * (c - clamp c lo hi) <= (c - p) * (c - p).
Proof.
  intros H Hl Hh.
  destruct (clamp_cases c lo hi H) as [[H1 E]|[[H1 [H2 E]]|[H1 E]]]; rewrite E.
  - assert (A : 0 <= (p - lo) * (lo - c)) by (apply Qmult_le_0_compat; lra).
    pose proof (square_nonneg (p - lo)). lra.
  - pose proof (square_nonneg (c - p)). lra.
  - assert (A : 0 <= (hi - p) * (c - hi)) by (apply Qmult_le_0_compat; lra).
    pose proof (square_nonneg (hi - p)). lra.
Qed.

Lemma square_le_bound (a r : Q) : 0 <= r -> a * a <= r * r -> - r <= a /\ a <= r.
Proof.
  intros Hr H. split.
  - destruct (Qlt_le_dec a (- r)) as [Hlt|]; [|assumption].
    assert (A : 0 <= (- r - a) * (r - a)) by (apply Qmult_le_0_compat; lra).
    assert (B : 0 < (- r - a) * (- r - a)).
    { apply Qmult_lt_0_compat; lra. }
    assert (C : 0 <= (- r - a) * r) by (apply Qmult_le_0_compat; lra).
    lra.
  - destruct (Qlt_le_dec r a) as [Hlt|]; [|assumption].
    assert (B : 0 < (a - r) * (a - r)).
    { apply Qmult_lt_0_compat; lra. }
    assert (C : 0 <= (a - r) * r) by (apply Qmult_le_0_compat; lra).
    lra.
Qed.

Lemma square_gt_bound (a r : Q) : 0 <= r -> r < a \/ a < - r -> r * r < a * a.
Proof.
  intros Hr [H|H].
  - assert (B : 0 < (a - r) * (a - r)) by (apply Qmult_lt_0_compat; lra).
    assert (C : 0 <= (a - r) * r) by (apply Qmult_le_0_compat; lra).
    lra.
  - assert (B : 0 < (- r - a) * (- r - a)) by (apply Qmult_lt_0_compat; lra).
    assert (C : 0 <= (- r - a) * r) by (apply Qmult_le_0_compat; lra).
    lra.
Qed.

(** X1.  For a rectangle of non-negative width and height,
    [circleIntersectsRect] answers true exactly when some point of the
    rectangle lies in the closed disc: the closest-point test is sound and
    complete. *)
Theorem circleIntersectsRect_iff (cx cy r rx ry rw rh : Q) :
  0 <= rw -> 0 <= rh ->
  circleIntersectsRect cx cy r rx ry rw rh = true <->
  exists px py : Q, in_rect rx ry rw rh px py /\ in_disc cx cy r px py.
Proof.
  intros Hw Hh. unfold circleIntersectsRect, in_rect, in_disc. cbv zeta.
  rewrite Qle_bool_iff.
  fold (clamp cx rx (rx + rw)). fold (clamp cy ry (ry + rh)).
  assert (Hx : rx <= rx + rw) by lra. assert (Hy : ry <= ry + rh) by lra.
  split.
  - intros H. exists (clamp cx rx (rx + rw)), (clamp cy ry (ry + rh)).
    destruct (clamp_bounds cx rx (rx + rw) Hx).
    destruct (clamp_bounds cy ry (ry + rh) Hy). auto 10.
  - intros (px & py & (H1 & H2 & H3 & H4) & H5).
    pose proof (clamp_closest cx rx (rx + rw) px Hx H1 H2).
    pose proof (clamp_closest cy ry (ry + rh) py Hy H3 H4).
    lra.
Qed.

Lemma circleIntersectsRect_iff_witness :
  circleIntersectsRect 90 405 14 100 0 70 400 = true /\
  exists px py : Q, in_rect 100 0 70 400 px py /\ in_disc 90 405 14 px py.
Proof.
  assert (Hw : 0 <= 70) by (vm_compute; discriminate).
  assert (Hh : 0 <= 400) by (vm_compute; discriminate).
  pose proof (circleIntersectsRect_iff 90 405 14 100 0 70 400 Hw Hh) as [Hex _].
  split; [reflexivity|]. apply Hex. reflexivity.
Defined.

(** The horizontal part of the test alone: a hit needs the bird's
    coordinate within one radius of the rectangle's horizontal extent. *)
Lemma circleIntersectsRect_near (cx cy r rx ry rw rh : Q) :
  0 <= rw -> 0 <= r ->
  circleIntersectsRect cx cy r rx ry rw rh = true ->
  rx - r <= cx /\ cx <= rx + rw + r.
Proof.
  intros Hw Hr. unfold circleIntersectsRect. cbv zeta. rewrite Qle_bool_iff.
  fold (clamp cx rx (rx + rw)). fold (clamp cy ry (ry + rh)).
  intros H.
  pose proof (square_nonneg (cy - clamp cy ry (ry + rh))) as Hdy.
  assert (Hdx : (cx - clamp cx rx (rx + rw)) * (cx - clamp cx rx (rx + rw)) <= r * r) by lra.
  apply (square_le_bound _ r Hr) in Hdx.
  assert (Hx : rx <= rx + rw) by lra.
  destruct (clamp_bounds cx rx (rx + rw) Hx). lra.
Qed.

(** ** What the collision test means for a pipe *)

(** A hit needs the column within one radius of the bird, horizontally. *)
Lemma hitsPipe_near (canvas : Canvas) (pipeGap birdY : Q) (p : Pipe) :
  hitsPipe canvas pipeGap birdY p = true ->
  BIRD_X - BIRD_RADIUS - PIPE_WIDTH <= x p /\ x p <= BIRD_X + BIRD_RADIUS.
Proof.
  unfold hitsPipe. cbv zeta. rewrite orb_true_iff.
  assert (Hw : 0 <= PIPE_WIDTH) by (vm_compute; discriminate).
  assert (Hr : 0 <= BIRD_RADIUS) by (vm_compute; discriminate).
  intros [H|H]; apply (circleIntersectsRect_near _ _ _ _ _ _ _ Hw Hr) in H; lra.
Qed.




(** X3.  A bird whose whole circle lies strictly inside the gap of a pipe
    (the gap's upper edge not above the top of the canvas) is not hit by
    that pipe, wherever the pipe is horizontally. *)
Theorem hitsPipe_false_inside_gap (canvas : Canvas) (pipeGap birdY : Q) (p : Pipe) :
  0 <= gapY p - pipeGap / 2 ->
  gapY p - pipeGap / 2 + BIRD_RADIUS < birdY ->
  birdY + BIRD_RADIUS < gapY p + pipeGap / 2 ->
  hitsPipe canvas pipeGap birdY p = false.
Proof.
  intros Htop Habove Hbelow. unfold hitsPipe. cbv zeta.
  assert (Hr : 0 <= BIRD_RADIUS) by (vm_compute; discriminate).
  apply orb_false_iff. split; unfold circleIntersectsRect; cbv zeta;
    apply Qle_bool_false_iff.
  - fold (clamp BIRD_X (x p) (x p + PIPE_WIDTH)).
    fold (clamp birdY 0 (0 + (gapY p - pipeGap / 2))).
    assert (Hlo : 0 <= 0 + (gapY p - pipeGap / 2)) by lra.
    destruct (clamp_bounds birdY 0 (0 + (gapY p - pipeGap / 2)) Hlo) as [_ Hc].
    pose proof (square_nonneg (BIRD_X - clamp BIRD_X (x p) (x p + PIPE_WIDTH))) as Hdx.
    assert (Hdy : BIRD_RADIUS * BIRD_RADIUS
                  < (birdY - clamp birdY 0 (0 + (gapY p - pipeGap / 2)))
                    * (birdY - clamp birdY 0 (0 + (gapY p - pipeGap / 2)))).
    { apply square_gt_bound; [exact Hr | left; lra]. }
    lra.
  - set (bottomY := Qmax (gapY p + pipeGap / 2)
                         (Qmin birdY (gapY p + pipeGap / 2
                                      + (FLOOR_Y canvas - (gapY p + pipeGap / 2))))).
    assert (Hc : gapY p + pipeGap / 2 <= bottomY) by apply Q.le_max_l.
    pose proof (square_nonneg (BIRD_X - Qmax (x p) (Qmin BIRD_X (x p + PIPE_WIDTH)))) as Hdx.
    assert (Hdy : BIRD_RADIUS * BIRD_RADIUS < (birdY - bottomY) * (birdY - bottomY)).
    { apply square_gt_bound; [exact Hr | right; lra]. }
    lra.
Qed.

Lemma hitsPipe_false_inside_gap_witness :
  hitsPipe canvas400x600 170 300 (mkPipe 60 300 false) = false /\
  state (update canvas400x600 0.016 0 inGap) = PLAYING.
Proof.
  assert (H1 : 0 <= gapY (mkPipe 60 300 false) - 170 / 2) by (vm_compute; discriminate).
  assert (H2 : gapY (mkPipe 60 300 false) - 170 / 2 + BIRD_RADIUS < 300)
    by (vm_compute; reflexivity).
  assert (H3 : 300 + BIRD_RADIUS < gapY (mkPipe 60 300 false) + 170 / 2)
    by (vm_compute; reflexivity).
  split; [|vm_compute; reflexivity].
  exact (hitsPipe_false_inside_gap canvas400x600 170 300 (mkPipe 60 300 false) H1 H2 H3).
Defined.

(** At the ceiling line, or above it, the bird touches the upper segment
    of any pipe whose column it is in, whatever the gap. *)
Lemma hitsPipe_at_ceiling (canvas : Canvas) (pipeGap birdY : Q) (p : Pipe) :
  0 <= birdY -> birdY <= BIRD_RADIUS -> over_bird p ->
  hitsPipe canvas pipeGap birdY p = true.
Proof.
  intros Hy0 Hy1 [Hx0 Hx1]. unfold hitsPipe. cbv zeta.
  apply orb_true_iff. left. unfold circleIntersectsRect. cbv zeta.
  apply Qle_bool_iff.
  fold (clamp BIRD_X (x p) (x p + PIPE_WIDTH)).
  assert (Hw : x p <= x p + PIPE_WIDTH) by lra.
  pose proof (clamp_closest BIRD_X (x p) (x p + PIPE_WIDTH) BIRD_X Hw Hx0 Hx1) as Hdx.
  set (topY := Qmax 0 (Qmin birdY (0 + (gapY p - pipeGap / 2)))).
  assert (Hlo : 0 <= topY) by apply Q.le_max_l.
  assert (Hhi : topY <= birdY)
    by (apply Q.max_lub; [exact Hy0 | apply Q.le_min_l]).
  assert (A : 0 <= (BIRD_RADIUS - (birdY - topY)) * (birdY - topY))
    by (apply Qmult_le_0_compat; lra).
  assert (B : 0 <= (BIRD_RADIUS - (birdY - topY)) * BIRD_RADIUS)
    by (apply Qmult_le_0_compat; [lra | vm_compute; discriminate]).
  lra.
Qed.

(** X4.  Flying over a pipe is not possible: in a PLAYING tick that takes
    the bird to the ceiling line or above it while the column of some pipe
    of the collection, after the move, spans the bird's horizontal
    coordinate, the run ends, whatever the gap. *)
Theorem ceiling_in_column_ends_run (canvas : Canvas) (dt random : Q) (g : Game) (p : Pipe) :
  let g' := update canvas dt random g in
  state g = PLAYING ->
  y (bird g) + (vy (bird g) + GRAVITY * dt) * dt <= BIRD_RADIUS ->
  In p (pipes g') -> over_bird p ->
  state g' = GAME_OVER /\ vy (bird g') = 0.
Proof.
  intros g' Hplay Hceil Hin Hover. subst g'.
  destruct (reaches_floor canvas dt g) eqn:Hfloor.
  - apply Qle_bool_iff in Hfloor.
    destruct (update_reaches_floor canvas dt random g Hplay Hfloor) as (E1 & _ & E3 & _).
    auto.
  - destruct (update_after_floor_test canvas dt random g Hplay Hfloor)
      as (_ & E1 & _ & E3 & E4 & _).
    rewrite E4 in Hin.
    assert (Hy : y (bird (birdPhysics dt g)) == BIRD_RADIUS).
    { rewrite birdPhysics_y. cbv zeta.
      match goal with |- context [Qlt_bool ?a ?b] => destruct (Qlt_bool a b) eqn:E end;
        [reflexivity|].
      apply Qlt_bool_false_iff in E. lra. }
    assert (Hhit : existsb (hitsPipe canvas (currentPipeGap (score g))
                                     (y (bird (birdPhysics dt g))))
                           (pipes (before_collision canvas dt random g)) = true).
    { apply existsb_exists. exists p. split; [exact Hin|].
      apply hitsPipe_at_ceiling; [| |exact Hover].
      - rewrite Hy. vm_compute. discriminate.
      - rewrite Hy. apply Qle_refl. }
    rewrite E1, E3, Hhit. auto.
Qed.

Lemma ceiling_in_column_ends_run_witness :
  state ceilingInColumn = PLAYING /\
  In (mkPipe (60 - 220 * 0.05) 300 false) (pipes (update canvas400x600 0.05 0 ceilingInColumn)) /\
  state (update canvas400x600 0.05 0 ceilingInColumn) = GAME_OVER.
Proof.
  assert (Hplay : state ceilingInColumn = PLAYING) by reflexivity.
  assert (Hceil : y (bird ceilingInColumn)
                  + (vy (bird ceilingInColumn) + GRAVITY * 0.05) * 0.05 <= BIRD_RADIUS)
    by (vm_compute; discriminate).
  assert (Hin : In (mkPipe (60 - 220 * 0.05) 300 false)
                   (pipes (update canvas400x600 0.05 0 ceilingInColumn)))
    by (vm_compute; left; reflexivity).
  assert (Hover : over_bird (mkPipe (60 - 220 * 0.05) 300 false))
    by (split; vm_compute; discriminate).
  split; [exact Hplay|]. split; [exact Hin|].
  exact (proj1 (ceiling_in_column_ends_run canvas400x600 0.05 0 ceilingInColumn _
                  Hplay Hceil Hin Hover)).
Defined.

(** ** Where the gaps are *)







Lemma Forall_filter_map {A B : Type} (f : A -> option B) (P : A -> Prop) (R : B -> Prop)
      (l : list A) :
  (forall a b, f a = Some b -> P a -> R b) -> Forall P l -> Forall R (filter_map f l).
Proof.
  intros Hf. induction 1 as [|a l Ha Hl IH]; cbn [filter_map]; [constructor|].
  destruct (f a) as [b|] eqn:E; [|exact IH].
  constructor; [exact (Hf a b E Ha) | exact IH].
Qed.

(** The score never goes down in an [update]. *)
Lemma update_score_le (canvas : Canvas) (dt random : Q) (g : Game) :
  (score g <= score (update canvas dt random g))%Z.
Proof.
  destruct (State_eqb (state g) PLAYING) eqn:Hplay.
  - apply State_eqb_eq in Hplay.
    destruct (reaches_floor canvas dt g) eqn:Hfloor.
    + apply Qle_bool_iff in Hfloor.
      destruct (update_reaches_floor canvas dt random g Hplay Hfloor)
        as (_ & _ & _ & _ & _ & _ & _ & E8).
      rewrite E8. lia.
    + destruct (update_after_floor_test canvas dt random g Hplay Hfloor)
        as (_ & _ & _ & _ & _ & _ & E6).
      rewrite E6, before_collision_score. lia.
  - rewrite update_not_playing; [lia|].
    intros H. apply State_eqb_eq in H. congruence.
Qed.


Lemma onPrimaryAction_run_state (canvas : Canvas) (g : Game) :
  (state g = PLAYING /\
   pipes (onPrimaryAction canvas true g) = pipes g /\
   spawnTimer (onPrimaryAction canvas true g) = spawnTimer g /\
   score (onPrimaryAction canvas true g) = score g) \/
  (state g <> PLAYING /\
   pipes (onPrimaryAction canvas true g) = [] /\
   spawnTimer (onPrimaryAction canvas true g) = 0 /\
   score (onPrimaryAction canvas true g) = 0%Z).
Proof.
  unfold onPrimaryAction. cbn [state call].
  destruct (state g) eqn:E; cbn; [right | left | right]; repeat split; congruence.
Qed.




(** ** How far apart the pipes are *)

Lemma currentSpawnEvery_bounds (s : Z) :
  MIN_SPAWN_EVERY <= currentSpawnEvery s /\ currentSpawnEvery s <= BASE_SPAWN_EVERY.
Proof. apply clamp_bounds. vm_compute. discriminate. Qed.

Lemma after_spawn_spawnTimer (canvas : Canvas) (dt random : Q) (g : Game) :
  spawnTimer (after_spawn canvas dt random g) =
  if Qle_bool (currentSpawnEvery (score g)) (spawnTimer g + dt) then 0 else spawnTimer g + dt.
Proof.
  unfold after_spawn, spawnPipes.
  destruct (birdPhysics_frame dt g) as (_ & _ & B3 & _).
  cbn [spawnTimer set_spawnTimer]. rewrite B3.
  destruct (Qle_bool (currentSpawnEvery (score g)) (spawnTimer g + dt)); reflexivity.
Qed.

Lemma before_collision_spawnTimer (canvas : Canvas) (dt random : Q) (g : Game) :
  spawnTimer (before_collision canvas dt random g) = spawnTimer (after_spawn canvas dt random g).
Proof.
  unfold before_collision.
  match goal with |- context [scoring ?h] =>
    destruct (scoring_frame h) as (_ & _ & E3 & _) end.
  rewrite E3. reflexivity.
Qed.

Lemma pipeTick_spaced (pipeSpeed dt : Q) (a a' : Pipe) (l : list Pipe) :
  pipeTick pipeSpeed dt a = Some a' ->
  Forall (spaced a) l -> Forall (spaced a') (filter_map (pipeTick pipeSpeed dt) l).
Proof.
  intros Ha. apply Forall_filter_map. intros b b' Hb Hab.
  apply pipeTick_Some in Ha. apply pipeTick_Some in Hb.
  destruct Ha as (Ea & _). destruct Hb as (Eb & _).
  unfold spaced in *. rewrite Ea, Eb. lra.
Qed.

Lemma filter_map_spaced (pipeSpeed dt : Q) (l : list Pipe) :
  StronglySorted spaced l -> StronglySorted spaced (filter_map (pipeTick pipeSpeed dt) l).
Proof.
  induction 1 as [|a l Hl IH Ha]; cbn [filter_map]; [constructor|].
  destruct (pipeTick pipeSpeed dt a) as [a'|] eqn:E; [|exact IH].
  constructor; [exact IH|]. now apply (pipeTick_spaced pipeSpeed dt a).
Qed.

Lemma StronglySorted_snoc {A : Type} (R : A -> A -> Prop) (l : list A) (b : A) :
  StronglySorted R l -> Forall (fun a => R a b) l -> StronglySorted R (l ++ [b]).
Proof.
  induction 1 as [|a l Hl IH Ha]; intros Hb; cbn [app].
  - constructor; constructor.
  - inversion Hb as [|? ? Hab Hlb]; subst.
    constructor; [now apply IH|].
    apply Forall_app. split; [exact Ha | now constructor].
Qed.

Lemma update_well_spaced (canvas : Canvas) (dt random : Q) (g : Game) :
  0 <= dt -> dt <= MAX_DT ->
  well_spaced canvas g -> well_spaced canvas (update canvas dt random g).
Proof.
  intros Hdt0 Hdt1 [Hsorted Hbehind]. unfold well_spaced.
  destruct (State_eqb (state g) PLAYING) eqn:Hplay.
  - apply State_eqb_eq in Hplay.
    destruct (reaches_floor canvas dt g) eqn:Hfloor.
    + apply Qle_bool_iff in Hfloor.
      destruct (update_reaches_floor canvas dt random g Hplay Hfloor)
        as (_ & _ & _ & _ & _ & E6 & E7 & _).
      rewrite E6, E7. auto.
    + destruct (update_after_floor_test canvas dt random g Hplay Hfloor)
        as (_ & _ & _ & _ & E4 & E5 & _).
      rewrite E4, E5, before_collision_pipes, before_collision_spawnTimer,
        after_spawn_pipes, after_spawn_spawnTimer.
      destruct (currentPipeSpeed_bounds (score g)) as [Hspeed _].
      destruct (currentSpawnEvery_bounds (score g)) as [Hevery _].
      assert (Hgain : 0 <= (currentPipeSpeed (score g) - BASE_PIPE_SPEED) * dt)
        by (apply Qmult_le_0_compat; lra).
      unfold BASE_PIPE_SPEED, MIN_SPAWN_EVERY, MAX_DT in *.
      destruct (Qle_bool (currentSpawnEvery (score g)) (spawnTimer g + dt)) eqn:Hspawn.
      * apply Qle_bool_iff in Hspawn.
        assert (Hold : Forall (fun a => x a + MIN_SPACING <= canvas_width canvas + PIPE_WIDTH)
                              (pipes g)).
        { eapply Forall_impl; [|exact Hbehind]. intros a Ha.
          unfold behind_spawn, MIN_SPACING, BASE_PIPE_SPEED, MIN_SPAWN_EVERY, MAX_DT in *.
          lra. }
        split.
        -- apply filter_map_spaced. apply StronglySorted_snoc; [exact Hsorted|].
           eapply Forall_impl; [|exact Hold]. intros a Ha. unfold spaced. exact Ha.
        -- apply (Forall_filter_map _ (fun a => x a <= canvas_width canvas + PIPE_WIDTH)).
           ++ intros a a' Ha Hle. apply pipeTick_Some in Ha. destruct Ha as (Ea & _).
              unfold behind_spawn, BASE_PIPE_SPEED. rewrite Ea. lra.
           ++ apply Forall_app. split.
              ** eapply Forall_impl; [|exact Hold]. intros a Ha. cbv beta in Ha.
                 unfold MIN_SPACING, BASE_PIPE_SPEED, MIN_SPAWN_EVERY, MAX_DT in Ha. lra.
              ** constructor; [cbn [x]; lra | constructor].
      * rewrite app_nil_r. split; [now apply filter_map_spaced|].
        apply (Forall_filter_map _ (behind_spawn canvas (spawnTimer g))); [|exact Hbehind].
        intros a a' Ha Hle. apply pipeTick_Some in Ha. destruct Ha as (Ea & _).
        unfold behind_spawn, BASE_PIPE_SPEED in *. rewrite Ea. lra.
  - rewrite update_not_playing; [auto|].
    intros H. apply State_eqb_eq in H. congruence.
Qed.

Lemma loop_dt_range (now t : Q) :
  t <= now -> 0 <= Qmin MAX_DT ((now - t) / 1000) /\ Qmin MAX_DT ((now - t) / 1000) <= MAX_DT.
Proof.
  intros H. split; [|apply Q.le_min_l].
  apply Q.min_glb; [vm_compute; discriminate|].
  apply Qle_shift_div_l; [reflexivity | lra].
Qed.

Lemma update_last (canvas : Canvas) (dt random : Q) (g : Game) :
  last (update canvas dt random g) = last g.
Proof.
  destruct (State_eqb (state g) PLAYING) eqn:Hplay.
  - apply State_eqb_eq in Hplay. rewrite (update_playing canvas dt random g Hplay).
    destruct (reaches_floor canvas dt g).
    + destruct (hit_floor_frame canvas (birdPhysics dt g)) as (_ & _ & _ & _ & _ & E6 & _).
      destruct (birdPhysics_frame dt g) as (_ & _ & _ & _ & _ & B6 & _).
      now rewrite E6, B6.
    + rewrite collision_existsb.
      destruct (before_collision_frame canvas dt random g) as (_ & _ & L).
      destruct (hit_pipe_frame (before_collision canvas dt random g))
        as (_ & _ & _ & _ & _ & H6 & _).
      destruct (existsb _ _); [rewrite H6|]; exact L.
  - rewrite update_not_playing; [reflexivity|].
    intros H. apply State_eqb_eq in H. congruence.
Qed.

Lemma handle_last (canvas : Canvas) (e : Event) (g : Game) :
  last (handle canvas e g) = match e with AnimationFrame now _ => now | _ => last g end.
Proof.
  destruct e as [code| |now random|]; cbn [handle].
  - destruct code; cbn [onKeydown]; try reflexivity.
    unfold onPrimaryAction. cbn [state call]. destruct (state g); reflexivity.
  - unfold onPrimaryAction. cbn [state call]. destruct (state g); reflexivity.
  - unfold loop. now rewrite update_last.
  - reflexivity.
Qed.

Lemma handle_well_spaced (canvas : Canvas) (e : Event) (g : Game) :
  match e with AnimationFrame now _ => last g <= now | _ => True end ->
  well_spaced canvas g -> well_spaced canvas (handle canvas e g).
Proof.
  intros He Hg.
  assert (Hprimary : well_spaced canvas (onPrimaryAction canvas true g)).
  { unfold well_spaced.
    destruct (onPrimaryAction_run_state canvas g) as [(_ & E1 & E2 & _)|(_ & E1 & E2 & _)];
      rewrite E1, E2; [exact Hg | split; constructor]. }
  destruct e as [code| |now random|]; cbn [handle].
  - destruct code; cbn [onKeydown]; try exact Hg; try exact Hprimary.
    split; constructor.
  - exact Hprimary.
  - unfold loop. destruct (loop_dt_range now (last g) He) as [H0 H1].
    apply update_well_spaced; [exact H0 | exact H1 | exact Hg].
  - exact Hg.
Qed.

Lemma run_well_spaced (canvas : Canvas) (es : list Event) (g : Game) :
  monotone_frames (last g) es ->
  well_spaced canvas g -> well_spaced canvas (run canvas es g).
Proof.
  revert g. induction es as [|e es IH]; intros g Hes Hg; [exact Hg|].
  rewrite run_cons. apply IH.
  - rewrite handle_last. destruct e as [code| |now random|]; cbn in Hes |- *; tauto.
  - apply handle_well_spaced; [|exact Hg].
    destruct e as [code| |now random|]; cbn in Hes |- *; tauto.
Qed.

Lemma MIN_SPACING_value : MIN_SPACING == 231.
Proof. vm_compute. reflexivity. Qed.

(** X6.  With frame timestamps that never go back, whatever the events
    since the page loaded, the pipes of the collection are in order of
    position and each is at least 231 to the right of every pipe before
    it. *)
Theorem pipes_keep_their_distance (canvas : Canvas) (es : list Event) (best : Z) (now : Q) :
  monotone_frames now es ->
  StronglySorted (fun a b => x a + 231 <= x b) (pipes (run canvas es (initial canvas best now))).
Proof.
  intros Hes.
  assert (H0 : well_spaced canvas (initial canvas best now)) by (split; constructor).
  destruct (run_well_spaced canvas es (initial canvas best now) Hes H0) as [Hsorted _].
  revert Hsorted. generalize (pipes (run canvas es (initial canvas best now))).
  induction 1 as [|a l Hl IH Ha]; constructor; [exact IH|].
  eapply Forall_impl; [|exact Ha]. intros b Hb. unfold spaced in Hb.
  rewrite MIN_SPACING_value in Hb. exact Hb.
Qed.

Lemma twoPipes_monotone : monotone_frames 0 twoPipes.
Proof.
  unfold twoPipes.
  cbn [monotone_frames flapping].
  repeat (split; [vm_compute; discriminate|]). exact I.
Qed.

Lemma pipes_keep_their_distance_witness :
  map (fun p => Qred (x p)) (pipes (run canvas400x600 twoPipes (initial canvas400x600 0 0)))
  = [162; 459] /\
  StronglySorted (fun a b => x a + 231 <= x b)
                 (pipes (run canvas400x600 twoPipes (initial canvas400x600 0 0))).
Proof.
  split; [vm_compute; reflexivity|].
  exact (pipes_keep_their_distance canvas400x600 twoPipes 0 0 twoPipes_monotone).
Defined.

Lemma spaced_one_hit (canvas : Canvas) (pipeGap birdY : Q) (l : list Pipe) :
  StronglySorted spaced l -> (length (filter (hitsPipe canvas pipeGap birdY) l) <= 1)%nat.
Proof.
  induction 1 as [|a l Hl IH Ha]; cbn [filter length]; [lia|].
  destruct (hitsPipe canvas pipeGap birdY a) eqn:Hhit; [|exact IH].
  apply hitsPipe_near in Hhit. destruct Hhit as [Hlo _].
  assert (Hnone : filter (hitsPipe canvas pipeGap birdY) l = []).
  { clear IH Hl. induction Ha as [|b l Hb Hbs IHl]; [reflexivity|].
    cbn [filter]. destruct (hitsPipe canvas pipeGap birdY b) eqn:Hb'; [|exact IHl].
    apply hitsPipe_near in Hb'. destruct Hb' as [_ Hhi].
    unfold spaced in Hb. rewrite MIN_SPACING_value in Hb.
    unfold BIRD_X, BIRD_RADIUS, PIPE_WIDTH in *. lra. }
  rewrite Hnone. cbn. lia.
Qed.

(** X7.  With frame timestamps that never go back, at most one pipe of the
    collection can be hit by the bird at any height and under any gap: the
    result of the collision pass does not depend on the order of its
    scan. *)
Theorem at_most_one_pipe_in_reach (canvas : Canvas) (es : list Event) (best : Z) (now : Q)
        (pipeGap birdY : Q) :
  monotone_frames now es ->
  (length (filter (hitsPipe canvas pipeGap birdY)
                  (pipes (run canvas es (initial canvas best now)))) <= 1)%nat.
Proof.
  intros Hes. apply spaced_one_hit.
  assert (H0 : well_spaced canvas (initial canvas best now)) by (split; constructor).
  exact (proj1 (run_well_spaced canvas es (initial canvas best now) Hes H0)).
Qed.

Lemma at_most_one_pipe_in_reach_witness :
  length (pipes (run canvas400x600 twoPipes (initial canvas400x600 0 0))) = 2%nat /\
  (length (filter (hitsPipe canvas400x600 170 14)
                  (pipes (run canvas400x600 twoPipes (initial canvas400x600 0 0)))) <= 1)%nat.
Proof.
  split; [vm_compute; reflexivity|].
  exact (at_most_one_pipe_in_reach canvas400x600 twoPipes 0 0 170 14 twoPipes_monotone).
Defined.

(** ** Every pipe is counted *)

Lemma In_filter_map {A B : Type} (f : A -> option B) (l : list A) (a : A) (b : B) :
  In a l -> f a = Some b -> In b (filter_map f l).
Proof.
  intros Hin Hf. induction l as [|c l IH]; [contradiction|].
  cbn [filter_map]. destruct Hin as [->|Hin].
  - rewrite Hf. now left.
  - destruct (f c); [right|]; now apply IH.
Qed.

Lemma update_scored_if_passed (canvas : Canvas) (dt random : Q) (g : Game) :
  Forall scored_if_passed (pipes g) ->
  Forall scored_if_passed (pipes (update canvas dt random g)).
Proof.
  intros Hg.
  destruct (State_eqb (state g) PLAYING) eqn:Hplay.
  - apply State_eqb_eq in Hplay.
    destruct (reaches_floor canvas dt g) eqn:Hfloor.
    + apply Qle_bool_iff in Hfloor.
      destruct (update_reaches_floor canvas dt random g Hplay Hfloor)
        as (_ & _ & _ & _ & _ & E6 & _). now rewrite E6.
    + destruct (update_after_floor_test canvas dt random g Hplay Hfloor)
        as (_ & _ & _ & _ & E4 & _).
      rewrite E4, before_collision_pipes.
      apply (Forall_filter_map _ (fun _ => True)).
      * intros p p' Htick _. apply pipeTick_Some in Htick.
        destruct Htick as (_ & _ & _ & Es). intros Hpassed.
        apply Qlt_bool_iff in Hpassed. rewrite Es, Hpassed. apply orb_true_r.
      * apply Forall_forall. auto.
  - rewrite update_not_playing; [exact Hg|].
    intros H. apply State_eqb_eq in H. congruence.
Qed.

Lemma reachable_scored_if_passed (canvas : Canvas) (g : Game) :
  reachable canvas g -> Forall scored_if_passed (pipes g).
Proof.
  induction 1 as [best now Hbest | e g Hg IH]; [constructor|].
  assert (Hprimary : Forall scored_if_passed (pipes (onPrimaryAction canvas true g))).
  { rewrite onPrimaryAction_pipes. destruct (State_eqb _ _); [exact IH | constructor]. }
  destruct e as [code| |now random|]; cbn [handle].
  - destruct code; cbn [onKeydown]; try exact IH; try exact Hprimary. constructor.
  - exact Hprimary.
  - unfold loop. apply update_scored_if_passed. exact IH.
  - exact IH.
Qed.

(** X8.  No pipe leaves the collection uncounted: in a game the script can
    reach, a full tick with [dt] at most 0.05 keeps every pipe whose flag
    is not yet set. *)
Theorem unscored_pipes_are_kept (canvas : Canvas) (dt random : Q) (g : Game) (p : Pipe) :
  reachable canvas g ->
  dt <= MAX_DT ->
  state g = PLAYING ->
  reaches_floor canvas dt g = false ->
  In p (pipes g) ->
  scored p = false ->
  exists p' : Pipe,
    pipeTick (currentPipeSpeed (score g)) dt p = Some p' /\
    In p' (pipes (update canvas dt random g)).
Proof.
  intros Hreach Hdt Hplay Hfloor Hin Hflag.
  pose proof (reachable_scored_if_passed canvas g Hreach) as HJ.
  rewrite Forall_forall in HJ. specialize (HJ p Hin). unfold scored_if_passed in HJ.
  assert (Hedge : BIRD_X <= x p + PIPE_WIDTH).
  { destruct (Qlt_le_dec (x p + PIPE_WIDTH) BIRD_X) as [Hlt|Hle]; [|exact Hle].
    specialize (HJ Hlt). congruence. }
  pose proof (pipe_travel_bound (score g) dt Hdt) as Hmove.
  destruct (pipeTick (currentPipeSpeed (score g)) dt p) as [p'|] eqn:Htick.
  - exists p'. split; [reflexivity|].
    destruct (update_after_floor_test canvas dt random g Hplay Hfloor)
      as (_ & _ & _ & _ & E4 & _).
    rewrite E4, before_collision_pipes, after_spawn_pipes.
    apply (In_filter_map _ _ p); [|exact Htick]. apply in_or_app. now left.
  - exfalso. unfold pipeTick in Htick. cbn [set_x x] in Htick.
    destruct (Qlt_bool 0 (x p - currentPipeSpeed (score g) * dt + PIPE_WIDTH)) eqn:E;
      [discriminate|].
    apply Qlt_bool_false_iff in E. unfold BIRD_X in Hedge. lra.
Qed.

Lemma unscored_pipes_are_kept_witness :
  reachable canvas400x600 afterTwoPipes /\
  In (hd (mkPipe 0 0 true) (pipes afterTwoPipes)) (pipes afterTwoPipes) /\
  scored (hd (mkPipe 0 0 true) (pipes afterTwoPipes)) = false /\
  exists p' : Pipe, In p' (pipes (update canvas400x600 0.05 0 afterTwoPipes)).
Proof.
  assert (Hbest : (0 <= 0)%Z) by lia.
  assert (Hreach : reachable canvas400x600 afterTwoPipes).
  { apply reachable_run. apply reachable_initial. exact Hbest. }
  assert (Hdt : 0.05 <= MAX_DT) by (vm_compute; discriminate).
  assert (Hplay : state afterTwoPipes = PLAYING) by (vm_compute; reflexivity).
  assert (Hfloor : reaches_floor canvas400x600 0.05 afterTwoPipes = false)
    by (vm_compute; reflexivity).
  assert (Hin : In (hd (mkPipe 0 0 true) (pipes afterTwoPipes)) (pipes afterTwoPipes))
    by (vm_compute; left; reflexivity).
  assert (Hflag : scored (hd (mkPipe 0 0 true) (pipes afterTwoPipes)) = false)
    by (vm_compute; reflexivity).
  destruct (unscored_pipes_are_kept canvas400x600 0.05 0 afterTwoPipes _
              Hreach Hdt Hplay Hfloor Hin Hflag) as (p' & _ & Hin').
  split; [exact Hreach|]. split; [exact Hin|]. split; [exact Hflag|].
  exists p'. exact Hin'.
Defined.

(** ** Score and best score *)

Lemma handle_score_nonneg (canvas : Canvas) (e : Event) (g : Game) :
  (0 <= score g)%Z -> (0 <= score (handle canvas e g))%Z.
Proof.
  intros Hg.
  assert (Hprimary : (0 <= score (onPrimaryAction canvas true g))%Z).
  { destruct (onPrimaryAction_run_state canvas g) as [(_ & _ & _ & E)|(_ & _ & _ & E)];
      rewrite E; lia. }
  destruct e as [code| |now random|]; cbn [handle].
  - destruct code; cbn [onKeydown]; try exact Hg; try exact Hprimary. cbn. lia.
  - exact Hprimary.
  - unfold loop.
    pose proof (update_score_le canvas (Qmin MAX_DT ((now - last g) / 1000)) random
                                (set_last now g)) as H.
    cbn [score set_last] in H. lia.
  - exact Hg.
Qed.

Lemma handle_bestScore_nonneg (canvas : Canvas) (e : Event) (g : Game) :
  (0 <= bestScore g)%Z -> (0 <= bestScore (handle canvas e g))%Z.
Proof.
  intros Hg. destruct e as [code| |now random|];
    try destruct code;
    try (cbn; lia);
    match goal with |- context [handle canvas ?ev g] =>
      assert (Hne : ev <> Keydown KeyC) by discriminate;
      pose proof (handle_bestScore_le canvas ev g Hne); lia end.
Qed.

(** X9.  In every game the script can reach, the score and the best score
    are non-negative. *)
Theorem scores_never_negative (canvas : Canvas) (g : Game) :
  reachable canvas g -> (0 <= score g)%Z /\ (0 <= bestScore g)%Z.
Proof.
  induction 1 as [best now Hbest | e g Hg [IHs IHb]].
  - cbn. lia.
  - split; [now apply handle_score_nonneg | now apply handle_bestScore_nonneg].
Qed.

Lemma scores_never_negative_witness :
  reachable canvas400x600 afterTwoPipes /\
  (0 <= score afterTwoPipes)%Z /\ (0 <= bestScore afterTwoPipes)%Z.
Proof.
  assert (Hbest : (0 <= 0)%Z) by lia.
  assert (Hreach : reachable canvas400x600 afterTwoPipes).
  { apply reachable_run. apply reachable_initial. exact Hbest. }
  split; [exact Hreach|].
  exact (scores_never_negative canvas400x600 afterTwoPipes Hreach).
Defined.

Lemma handle_score_le_best (canvas : Canvas) (e : Event) (g : Game) :
  e <> Keydown KeyC ->
  (0 <= bestScore g)%Z -> (score g <= bestScore g)%Z ->
  (score (handle canvas e g) <= bestScore (handle canvas e g))%Z.
Proof.
  intros He Hb Hg.
  assert (Hprimary : (score (onPrimaryAction canvas true g)
                      <= bestScore (onPrimaryAction canvas true g))%Z).
  { rewrite onPrimaryAction_bestScore.
    destruct (onPrimaryAction_run_state canvas g) as [(_ & _ & _ & E)|(_ & _ & _ & E)];
      rewrite E; lia. }
  destruct e as [code| |now random|]; cbn [handle].
  - destruct code; cbn [onKeydown]; try exact Hg; try exact Hprimary.
    + cbn. lia.
    + congruence.
  - exact Hprimary.
  - unfold loop.
    assert (Ht : tracks (bestScore g) (set_last now g))
      by (unfold tracks; cbn [bestScore score set_last]; lia).
    apply (update_tracks canvas _ (Qmin MAX_DT ((now - last g) / 1000)) random) in Ht.
    unfold tracks in Ht. lia.
  - exact Hg.
Qed.

(** X10.  As long as the best score has not been cleared with the C key,
    it is at least the score: from a page load with a non-negative stored
    best score, after any events without a clear-best command, the score
    is at most the best score. *)
Theorem score_at_most_best (canvas : Canvas) (es : list Event) (best : Z) (now : Q) :
  (0 <= best)%Z ->
  ~ In (Keydown KeyC) es ->
  (score (run canvas es (initial canvas best now))
   <= bestScore (run canvas es (initial canvas best now)))%Z.
Proof.
  intros Hbest.
  assert (H0 : (0 <= bestScore (initial canvas best now))%Z
               /\ (score (initial canvas best now) <= bestScore (initial canvas best now))%Z)
    by (cbn; lia).
  revert H0. generalize (initial canvas best now).
  induction es as [|e es IH]; intros g [Hb Hg] Hclear; [exact Hg|].
  rewrite run_cons.
  assert (He : e <> Keydown KeyC) by (intros ->; apply Hclear; now left).
  apply IH.
  - split; [now apply handle_bestScore_nonneg | now apply handle_score_le_best].
  - intros H. apply Hclear. now right.
Qed.

Lemma score_at_most_best_witness :
  (0 <= 0)%Z /\ ~ In (Keydown KeyC) twoPipes /\
  (score afterTwoPipes <= bestScore afterTwoPipes)%Z.
Proof.
  assert (Hbest : (0 <= 0)%Z) by lia.
  assert (Hclear : ~ In (Keydown KeyC) twoPipes).
  { unfold twoPipes. cbn [flapping In].
    intros H. repeat (destruct H as [H|H]; [discriminate H|]). exact H. }
  split; [exact Hbest|]. split; [exact Hclear|].
  exact (score_at_most_best canvas400x600 twoPipes 0 0 Hbest Hclear).
Defined.

(** ** Phases *)

Lemma set_last_set_last (t t' : Q) (g : Game) : set_last t (set_last t' g) = set_last t g.
Proof. reflexivity. Qed.

(** X11.  Outside PLAYING the animation loop changes nothing but the time
    of the last frame: after any number of frames the game is the one
    before them with [last] updated, so a finished run keeps its score,
    bird and pipes until a key or a pointer press. *)
Theorem frames_outside_playing (canvas : Canvas) (es : list Event) (g : Game) :
  state g <> PLAYING ->
  Forall is_frame es ->
  run canvas es g = set_last (last (run canvas es g)) g.
Proof.
  intros Hstate Hes. revert g Hstate.
  induction Hes as [|e es He Hes IH]; intros g Hstate.
  - cbn. now destruct g.
  - destruct e as [code| |now random|]; try contradiction.
    rewrite run_cons. cbn [handle]. unfold loop.
    rewrite update_not_playing by exact Hstate.
    rewrite (IH (set_last now g) Hstate). now rewrite set_last_set_last.
Qed.

Lemma frames_outside_playing_witness :
  state afterCrash <> PLAYING /\ Forall is_frame fiveFrames /\
  run canvas400x600 fiveFrames afterCrash = set_last 2080 afterCrash.
Proof.
  assert (Hstate : state afterCrash <> PLAYING) by discriminate.
  assert (Hes : Forall is_frame fiveFrames) by (repeat constructor).
  split; [exact Hstate|]. split; [exact Hes|].
  rewrite (frames_outside_playing canvas400x600 fiveFrames afterCrash Hstate Hes).
  reflexivity.
Defined.

Lemma update_state (canvas : Canvas) (dt random : Q) (g : Game) :
  state (update canvas dt random g) = state g \/
  (state g = PLAYING /\ state (update canvas dt random g) = GAME_OVER).
Proof.
  destruct (State_eqb (state g) PLAYING) eqn:Hplay.
  - apply State_eqb_eq in Hplay.
    destruct (reaches_floor canvas dt g) eqn:Hfloor.
    + apply Qle_bool_iff in Hfloor.
      destruct (update_reaches_floor canvas dt random g Hplay Hfloor) as (E1 & _). auto.
    + destruct (update_after_floor_test canvas dt random g Hplay Hfloor) as (_ & E1 & _).
      rewrite E1. destruct (existsb _ _); [right | left]; auto.
  - left. rewrite update_not_playing; [reflexivity|].
    intros H. apply State_eqb_eq in H. congruence.
Qed.

(** X12.  The phase changes only in three ways: START is entered only by
    the R key, PLAYING only by a primary action whose awaited unlock
    fulfils, and GAME_OVER only from PLAYING by a frame of the animation
    loop.  A primary action whose unlock fulfils always leads to PLAYING,
    one whose unlock rejects changes nothing in the game, and the R key
    always leads to START. *)
Theorem phase_changes (canvas : Canvas) (e : Event) (g : Game) :
  (state (handle canvas e g) = START -> state g = START \/ e = Keydown KeyR) /\
  (state (handle canvas e g) = PLAYING -> state g = PLAYING \/ is_primary e) /\
  (state (handle canvas e g) = GAME_OVER ->
   state g = GAME_OVER \/ (state g = PLAYING /\ is_frame e)) /\
  (is_primary e -> state (handle canvas e g) = PLAYING) /\
  (e = PrimaryRejected -> handle canvas e g = call Sound_unlock g) /\
  (e = Keydown KeyR -> state (handle canvas e g) = START).
Proof.
  assert (Hprimary : state (onPrimaryAction canvas true g) = PLAYING).
  { unfold onPrimaryAction. cbn [state call]. destruct (state g) eqn:E; cbn; congruence. }
  destruct e as [code| |now random|]; cbn [handle is_primary is_frame].
  - destruct code; cbn [onKeydown]; rewrite ?Hprimary; cbn [state set_bestScore call];
      repeat split; intros; try discriminate; try contradiction; auto.
  - rewrite Hprimary. repeat split; intros; try discriminate; auto.
  - unfold loop.
    destruct (update_state canvas (Qmin MAX_DT ((now - last g) / 1000)) random (set_last now g))
      as [E|[E1 E2]]; cbn [state set_last] in *.
    + rewrite E. repeat split; intros; try discriminate; try contradiction; auto.
    + rewrite E2. repeat split; intros; try discriminate; try contradiction; auto.
  - unfold onPrimaryAction. cbn [state call].
    repeat split; intros; try discriminate; try contradiction; auto.
Qed.

(** X13.  Outside PLAYING a primary action whose awaited unlock fulfils
    starts a fresh run, whatever the finished run left behind: the game is
    the one a reset followed by such a primary action gives, PLAYING with
    the bird at the start height moving up at the jump velocity, no pipes,
    spawn timer 0, score 0, and the best score untouched.  A primary action
    whose unlock rejects leaves the game as it was, the call apart. *)
Theorem primary_action_starts_fresh_run (canvas : Canvas) (g : Game) :
  state g <> PLAYING ->
  onPrimaryAction canvas true g = onPrimaryAction canvas true (goToStart canvas g) /\
  state (onPrimaryAction canvas true g) = PLAYING /\
  bird (onPrimaryAction canvas true g) = mkBird (canvas_height canvas * 0.35) JUMP_VELOCITY /\
  pipes (onPrimaryAction canvas true g) = [] /\
  spawnTimer (onPrimaryAction canvas true g) = 0 /\
  score (onPrimaryAction canvas true g) = 0%Z /\
  bestScore (onPrimaryAction canvas true g) = bestScore g /\
  onPrimaryAction canvas false g = call Sound_unlock g.
Proof.
  intros Hstate. unfold onPrimaryAction. cbn [state call goToStart set_state State_eqb].
  destruct (state g) eqn:E; [|congruence|]; cbn; auto 10.
Qed.

Lemma primary_action_starts_fresh_run_witness :
  state afterCrash <> PLAYING /\
  score afterCrash = 4%Z /\
  score (onPrimaryAction canvas400x600 true afterCrash) = 0%Z /\
  pipes (onPrimaryAction canvas400x600 true afterCrash) = [] /\
  bestScore (onPrimaryAction canvas400x600 true afterCrash) = 9%Z.
Proof.
  assert (Hstate : state afterCrash <> PLAYING) by discriminate.
  destruct (primary_action_starts_fresh_run canvas400x600 afterCrash Hstate)
    as (_ & _ & _ & E4 & _ & E6 & E7 & _).
  split; [exact Hstate|]. split; [reflexivity|]. split; [exact E6|].
  split; [exact E4 | exact E7].
Defined.

(** ** What the phase says about the rest of the game *)

(** X14.  In every game the script can reach, phase START means the reset
    state: the bird rests at the start height, there are no pipes, spawn
    timer and score are 0, and the R key changes nothing. *)
Theorem start_phase_is_reset_state (canvas : Canvas) (g : Game) :
  reachable canvas g ->
  state g = START ->
  bird g = mkBird (canvas_height canvas * 0.35) 0 /\
  pipes g = [] /\ spawnTimer g = 0 /\ score g = 0%Z /\
  goToStart canvas g = g.
Proof.
  intros Hreach Hstate.
  pose proof (reachable_START_is_reset canvas g Hreach Hstate) as E.
  rewrite <- E at 1 2 3 4. cbn. auto.
Qed.

Lemma start_phase_is_reset_state_witness :
  reachable canvas400x600
            (run canvas400x600 (twoPipes ++ [Keydown KeyR; Keydown KeyC; AnimationFrame 3000 0])
                 (initial canvas400x600 3 0)) /\
  pipes (run canvas400x600 (twoPipes ++ [Keydown KeyR; Keydown KeyC; AnimationFrame 3000 0])
             (initial canvas400x600 3 0)) = [].
Proof.
  assert (Hbest : (0 <= 3)%Z) by lia.
  assert (Hreach : reachable canvas400x600
            (run canvas400x600 (twoPipes ++ [Keydown KeyR; Keydown KeyC; AnimationFrame 3000 0])
                 (initial canvas400x600 3 0))).
  { apply reachable_run. apply reachable_initial. exact Hbest. }
  assert (Hstate : state
            (run canvas400x600 (twoPipes ++ [Keydown KeyR; Keydown KeyC; AnimationFrame 3000 0])
                 (initial canvas400x600 3 0)) = START) by (vm_compute; reflexivity).
  split; [exact Hreach|].
  exact (proj1 (proj2 (start_phase_is_reset_state canvas400x600 _ Hreach Hstate))).
Defined.

Lemma reachable_playing_below_ceiling (canvas : Canvas) (g : Game) :
  BIRD_RADIUS <= canvas_height canvas * 0.35 ->
  reachable canvas g ->
  state g = PLAYING ->
  BIRD_RADIUS <= y (bird g).
Proof.
  intros Hstart. induction 1 as [best now Hbest | e g Hg IH]; [discriminate|].
  assert (Hprimary : state (onPrimaryAction canvas true g) = PLAYING ->
                     BIRD_RADIUS <= y (bird (onPrimaryAction canvas true g))).
  { unfold onPrimaryAction. cbn [state call].
    destruct (state g) eqn:E; cbn; intros _; auto. }
  destruct e as [code| |now random|]; cbn [handle].
  - destruct code; cbn [onKeydown]; try exact IH; try exact Hprimary.
    discriminate.
  - exact Hprimary.
  - unfold loop. intros H.
    destruct (State_eqb (state (set_last now g)) PLAYING) eqn:E.
    + apply State_eqb_eq in E.
      destruct (reaches_floor canvas (Qmin MAX_DT ((now - last g) / 1000)) (set_last now g))
        eqn:Hfloor.
      * apply Qle_bool_iff in Hfloor.
        destruct (update_reaches_floor canvas _ random _ E Hfloor) as (E1 & _).
        congruence.
      * destruct (update_after_floor_test canvas _ random _ E Hfloor) as (_ & _ & E2 & _).
        rewrite E2. apply birdPhysics_ceiling.
    + rewrite update_not_playing in H;
        [|intros C; apply State_eqb_eq in C; congruence].
      cbn [state set_last] in E, H. rewrite H in E. discriminate.
  - exact IH.
Qed.

(** X15.  On a canvas where the start height lies between the ceiling line
    and the floor line, in every PLAYING game the script can reach, not
    only right after an [update], the bird is at or below the ceiling line
    [BIRD_RADIUS] and strictly above the floor line
    [FLOOR_Y - BIRD_RADIUS]. *)
Theorem playing_bird_between_lines (canvas : Canvas) (g : Game) :
  BIRD_RADIUS <= canvas_height canvas * 0.35 ->
  canvas_height canvas * 0.35 < FLOOR_Y canvas - BIRD_RADIUS ->
  reachable canvas g ->
  state g = PLAYING ->
  BIRD_RADIUS <= y (bird g) /\ y (bird g) < FLOOR_Y canvas - BIRD_RADIUS.
Proof.
  intros Hlo Hhi Hreach Hplay. split.
  - now apply (reachable_playing_below_ceiling canvas).
  - now apply (reachable_playing_above_floor canvas).
Qed.

Lemma playing_bird_between_lines_witness :
  reachable canvas400x600 afterTwoPipes /\ state afterTwoPipes = PLAYING /\
  BIRD_RADIUS <= y (bird afterTwoPipes) /\
  y (bird afterTwoPipes) < FLOOR_Y canvas400x600 - BIRD_RADIUS.
Proof.
  assert (Hlo : BIRD_RADIUS <= canvas_height canvas400x600 * 0.35) by (vm_compute; discriminate).
  assert (Hhi : canvas_height canvas400x600 * 0.35 < FLOOR_Y canvas400x600 - BIRD_RADIUS)
    by (vm_compute; reflexivity).
  assert (Hbest : (0 <= 0)%Z) by lia.
  assert (Hreach : reachable canvas400x600 afterTwoPipes).
  { apply reachable_run. apply reachable_initial. exact Hbest. }
  assert (Hplay : state afterTwoPipes = PLAYING) by (vm_compute; reflexivity).
  split; [exact Hreach|]. split; [exact Hplay|].
  exact (playing_bird_between_lines canvas400x600 afterTwoPipes Hlo Hhi Hreach Hplay).
Defined.

(** ** The stored best score *)

(** X16.  [loadBestScore] never returns a negative number, whatever the
    storage holds and whatever [Number] makes of it: it gives 0 when the
    storage throws, when nothing is stored under the key, and when the
    stored text is not a finite number or is negative; otherwise it gives
    the integer part of the stored number. *)
Theorem loadBestScore_defaults (toNumber : String.string -> JSNumber) (storage : Storage) :
  (0 <= loadBestScore toNumber storage)%Z /\
  (throws storage = true -> loadBestScore toNumber storage = 0%Z) /\
  (items storage BEST_SCORE_KEY = None -> loadBestScore toNumber storage = 0%Z) /\
  (forall text : String.string,
      items storage BEST_SCORE_KEY = Some text ->
      match toNumber text with
      | Finite q =>
          throws storage = false -> 0 <= q ->
          inject_Z (loadBestScore toNumber storage) <= q /\
          q < inject_Z (loadBestScore toNumber storage + 1)
      | _ => loadBestScore toNumber storage = 0%Z
      end) /\
  (forall (text : String.string) (q : Q),
      items storage BEST_SCORE_KEY = Some text -> toNumber text = Finite q -> q < 0 ->
      loadBestScore toNumber storage = 0%Z).
Proof.
  unfold loadBestScore. cbv zeta.
  destruct (throws storage) eqn:Hthrows.
  - split; [lia|]. split; [reflexivity|]. split; [reflexivity|]. split.
    + intros text _. destruct (toNumber text); try reflexivity. discriminate.
    + reflexivity.
  - destruct (items storage BEST_SCORE_KEY) as [text|] eqn:Hitem; cbn [Number_of].
    + split; [|split; [discriminate|split; [discriminate|split]]].
      * destruct (toNumber text) as [| |q]; try lia.
        destruct (Qle_bool 0 q) eqn:Hq; [|lia].
        apply Qle_bool_iff in Hq. apply Qfloor_resp_le in Hq. exact Hq.
      * intros text' [= <-]. destruct (toNumber text) as [| |q]; try reflexivity.
        intros _ Hq. apply Qle_bool_iff in Hq. rewrite Hq.
        split; [apply Qfloor_le | apply Qlt_floor].
      * intros text' q [= <-] Hnum Hq. rewrite Hnum.
        apply Qle_bool_false_iff in Hq. now rewrite Hq.
    + split; [cbn; lia|]. split; [discriminate|]. split; [reflexivity|].
      split; discriminate.
Qed.

Lemma loadBestScore_defaults_witness :
  loadBestScore fromDecimal blockedStorage = 0%Z /\
  loadBestScore fromDecimal emptyStorage = 0%Z /\
  (0 <= loadBestScore fromDecimal (stored decimal [localStorage_setItem 12] emptyStorage))%Z.
Proof.
  destruct (loadBestScore_defaults fromDecimal blockedStorage) as (_ & Hthrows & _).
  destruct (loadBestScore_defaults fromDecimal emptyStorage) as (_ & _ & Hnone & _).
  destruct (loadBestScore_defaults fromDecimal
              (stored decimal [localStorage_setItem 12] emptyStorage)) as (Hnonneg & _).
  split; [apply Hthrows; reflexivity|]. split; [apply Hnone; reflexivity | exact Hnonneg].
Defined.

Lemma in_step_same (toString : Z -> String.string) (toNumber : String.string -> JSNumber)
      (storage : Storage) (g g' : Game) :
  calls g' = calls g -> bestScore g' = bestScore g ->
  in_step toString toNumber storage g -> in_step toString toNumber storage g'.
Proof. unfold in_step. intros -> ->. auto. Qed.

Lemma in_step_sound (toString : Z -> String.string) (toNumber : String.string -> JSNumber)
      (storage : Storage) (c : Call) (g : Game) :
  (forall st, perform toString c st = st) ->
  in_step toString toNumber storage g -> in_step toString toNumber storage (call c g).
Proof.
  intros Hc. unfold in_step, stored. cbn [calls call bestScore fold_right].
  now rewrite Hc.
Qed.

Lemma loadBestScore_nonneg (toNumber : String.string -> JSNumber) (storage : Storage) :
  (0 <= loadBestScore toNumber storage)%Z.
Proof.
  unfold loadBestScore. cbv zeta. destruct (throws storage); [lia|].
  destruct (Number_of toNumber (items storage BEST_SCORE_KEY)) as [| |q]; try lia.
  destruct (Qle_bool 0 q) eqn:Hq; [|lia].
  apply Qle_bool_iff in Hq. apply Qfloor_resp_le in Hq. exact Hq.
Qed.

Lemma in_step_setBestScore (toString : Z -> String.string)
      (toNumber : String.string -> JSNumber) (storage : Storage) (v : Z) (g : Game) :
  (forall value : Z, (0 <= value)%Z -> toNumber (toString value) = Finite (inject_Z value)) ->
  in_step toString toNumber storage g ->
  in_step toString toNumber storage (setBestScore v g).
Proof.
  intros Hround [Hthrows Hload]. unfold setBestScore.
  destruct (Z.ltb_spec (bestScore g) v) as [Hlt|Hge]; [|now split].
  pose proof (loadBestScore_nonneg toNumber (stored toString (calls g) storage)) as H0.
  assert (Hv : (0 <= v)%Z) by lia.
  unfold in_step, saveBestScore, stored.
  cbn [calls call set_bestScore bestScore fold_right perform].
  fold (stored toString (calls g) storage). rewrite Hthrows.
  split; [reflexivity|].
  unfold loadBestScore. cbn [throws items]. rewrite String.eqb_refl. cbn [Number_of].
  rewrite (Hround v Hv).
  assert (Hq : Qle_bool 0 (inject_Z v) = true).
  { apply Qle_bool_iff. change 0 with (inject_Z 0). now rewrite <- Zle_Qle. }
  rewrite Hq. apply Qfloor_Z.
Qed.

Lemma in_step_clear (toString : Z -> String.string) (toNumber : String.string -> JSNumber)
      (storage : Storage) (g : Game) :
  in_step toString toNumber storage g ->
  in_step toString toNumber storage (set_bestScore 0 (call localStorage_removeItem g)).
Proof.
  intros [Hthrows Hload]. unfold in_step, stored.
  cbn [calls call set_bestScore bestScore fold_right perform].
  fold (stored toString (calls g) storage). rewrite Hthrows.
  split; [reflexivity|].
  unfold loadBestScore. cbn [throws items]. now rewrite String.eqb_refl.
Qed.

Section InStep.
Variable toString : Z -> String.string.
Variable toNumber : String.string -> JSNumber.
Variable storage : Storage.
Hypothesis round_trip :
  forall value : Z, (0 <= value)%Z -> toNumber (toString value) = Finite (inject_Z value).

Lemma in_step_scoringLoop (ps : list Pipe) (g : Game)  :
  in_step toString toNumber storage g ->
  in_step toString toNumber storage (snd (scoringLoop ps g)).
Proof.
  revert g. induction ps as [|p rest IH]; intros g Hg; [exact Hg|].
  rewrite scoringLoop_cons. destruct (passes p); cbn [snd]; apply IH; [|exact Hg].
  unfold scored_one. apply in_step_sound; [reflexivity|].
  apply in_step_setBestScore; [exact round_trip|].
  now apply (in_step_same _ _ _ g).
Qed.

Lemma in_step_scoring (g : Game)  :
  in_step toString toNumber storage g ->
  in_step toString toNumber storage (scoring g).
Proof.
  intros Hg. pose proof (in_step_scoringLoop (pipes g) g Hg) as H.
  unfold scoring. destruct (scoringLoop (pipes g) g) as [ps g']. cbn [snd] in H.
  now apply (in_step_same _ _ _ g').
Qed.

Lemma in_step_hit_pipe (g : Game)  :
  in_step toString toNumber storage g ->
  in_step toString toNumber storage (hit_pipe g).
Proof.
  intros Hg. unfold hit_pipe. apply in_step_sound; [reflexivity|].
  apply in_step_setBestScore; [exact round_trip|].
  now apply (in_step_same _ _ _ g).
Qed.

Lemma in_step_hit_floor (canvas : Canvas) (g : Game)  :
  in_step toString toNumber storage g ->
  in_step toString toNumber storage (hit_floor canvas g).
Proof.
  intros Hg. unfold hit_floor. apply in_step_sound; [reflexivity|].
  apply in_step_setBestScore; [exact round_trip|].
  now apply (in_step_same _ _ _ g).
Qed.

Lemma in_step_birdPhysics (dt : Q) (g : Game)  :
  in_step toString toNumber storage g ->
  in_step toString toNumber storage (birdPhysics dt g).
Proof.
  destruct (birdPhysics_frame dt g) as (_ & _ & _ & _ & B5 & _ & B7).
  now apply in_step_same.
Qed.

Lemma in_step_before_collision (canvas : Canvas) (dt random : Q) (g : Game)  :
  in_step toString toNumber storage g ->
  in_step toString toNumber storage (before_collision canvas dt random g).
Proof.
  intros Hg. unfold before_collision. apply in_step_scoring.
  unfold movePipes. apply (in_step_same _ _ _ (after_spawn canvas dt random g));
    [reflexivity | reflexivity |].
  unfold after_spawn.
  match goal with |- context [spawnPipes ?c ?e ?gp ?d ?r ?h] =>
    destruct (spawnPipes_frame c e gp d r h) as (_ & _ & _ & S4 & _ & S6) end.
  apply (in_step_same _ _ _ (birdPhysics dt g)); [exact S6 | exact S4 |].
  now apply in_step_birdPhysics.
Qed.

Lemma in_step_update (canvas : Canvas) (dt random : Q) (g : Game)  :
  in_step toString toNumber storage g ->
  in_step toString toNumber storage (update canvas dt random g).
Proof.
  intros Hg. destruct (State_eqb (state g) PLAYING) eqn:Hplay.
  - apply State_eqb_eq in Hplay. rewrite (update_playing canvas dt random g Hplay).
    destruct (reaches_floor canvas dt g).
    + apply in_step_hit_floor. now apply in_step_birdPhysics.
    + rewrite collision_existsb.
      pose proof (in_step_before_collision canvas dt random g Hg) as H.
      destruct (existsb _ _); [now apply in_step_hit_pipe | exact H].
  - rewrite update_not_playing; [exact Hg|].
    intros H. apply State_eqb_eq in H. congruence.
Qed.

Lemma in_step_onPrimaryAction (canvas : Canvas) (g : Game)  :
  in_step toString toNumber storage g ->
  in_step toString toNumber storage (onPrimaryAction canvas true g).
Proof.
  intros Hg. unfold onPrimaryAction. cbn [state call].
  destruct (state g); cbn [State_eqb startPlaying];
    apply in_step_sound; try reflexivity;
    match goal with |- in_step toString toNumber storage ?h =>
      apply (in_step_same _ _ _ (call Sound_unlock g)); [reflexivity | reflexivity |] end;
    now apply in_step_sound.
Qed.

Lemma in_step_handle (canvas : Canvas) (e : Event) (g : Game)  :
  in_step toString toNumber storage g ->
  in_step toString toNumber storage (handle canvas e g).
Proof.
  intros Hg. destruct e as [code| |now random|]; cbn [handle].
  - destruct code; cbn [onKeydown].
    + now apply in_step_onPrimaryAction.
    + now apply (in_step_same _ _ _ g).
    + now apply in_step_clear.
    + now apply in_step_sound.
    + exact Hg.
  - now apply in_step_onPrimaryAction.
  - unfold loop. apply in_step_update. now apply (in_step_same _ _ _ g).
- change (in_step toString toNumber storage (call Sound_unlock g)).
  now apply in_step_sound.
Qed.

Lemma in_step_run (canvas : Canvas) (es : list Event) (g : Game)  :
  in_step toString toNumber storage g ->
  in_step toString toNumber storage (run canvas es g).
Proof.
  revert g. induction es as [|e es IH]; intros g Hg; [exact Hg|].
  rewrite run_cons. apply IH. now apply in_step_handle.
Qed.
End InStep.

(** X17.  The stored best score and the displayed one stay in step.  With
    a storage that does not throw and conversions under which a
    non-negative integer written as text reads back as itself: start the
    page with the best score [loadBestScore] returns, let any events
    happen, and perform the script's storage calls in order; then
    [loadBestScore] on the resulting storage returns the game's
    [bestScore].  A reload shows the same best score, also after the best
    score has been cleared. *)
Theorem stored_best_in_step
        (toString : Z -> String.string) (toNumber : String.string -> JSNumber)
        (storage : Storage) (canvas : Canvas) (es : list Event) (now : Q) :
  (forall value : Z, (0 <= value)%Z -> toNumber (toString value) = Finite (inject_Z value)) ->
  throws storage = false ->
  loadBestScore toNumber
    (stored toString
            (calls (run canvas es (initial canvas (loadBestScore toNumber storage) now)))
            storage)
  = bestScore (run canvas es (initial canvas (loadBestScore toNumber storage) now)).
Proof.
  intros Hround Hthrows.
  assert (H0 : in_step toString toNumber storage
                       (initial canvas (loadBestScore toNumber storage) now))
    by (split; [exact Hthrows | reflexivity]).
  exact (proj2 (in_step_run toString toNumber storage Hround canvas es _ H0)).
Qed.

Lemma decimal_round_trip (value : Z) :
  (0 <= value)%Z -> fromDecimal (decimal value) = Finite (inject_Z value).
Proof.
  intros _. unfold fromDecimal, decimal.
  rewrite DecimalString.NilZero.isi.
  - now rewrite DecimalZ.of_to.
  - destruct value as [|p|p]; cbn; try discriminate.
    intros [= H]. exact (DecimalPos.Unsigned.to_uint_nonnil p H).
  - destruct value as [|p|p]; cbn; try discriminate.
    intros [= H]. exact (DecimalPos.Unsigned.to_uint_nonnil p H).
Qed.

Lemma stored_best_in_step_witness :
  loadBestScore fromDecimal storageWith3 = 3%Z /\
  bestScore (run canvas400x600 scoreThenClear
                 (initial canvas400x600 (loadBestScore fromDecimal storageWith3) 0)) = 0%Z /\
  loadBestScore fromDecimal
    (stored decimal
            (calls (run canvas400x600 scoreThenClear
                        (initial canvas400x600 (loadBestScore fromDecimal storageWith3) 0)))
            storageWith3) = 0%Z.
Proof.
  assert (Hthrows : throws storageWith3 = false) by reflexivity.
  assert (Ebest : bestScore (run canvas400x600 scoreThenClear
                    (initial canvas400x600 (loadBestScore fromDecimal storageWith3) 0)) = 0%Z)
    by (vm_compute; reflexivity).
  split; [vm_compute; reflexivity|]. split; [exact Ebest|].
  rewrite (stored_best_in_step decimal fromDecimal storageWith3 canvas400x600 scoreThenClear 0
                               decimal_round_trip Hthrows).
  exact Ebest.
Defined.

(** ** The [Sound] object *)

Lemma Sound_run_cons (op : Sound.Op) (ops : list Sound.Op) (s : Sound.t) :
  Sound.run (op :: ops) s = Sound.run ops (Sound.apply op s).
Proof. reflexivity. Qed.

(** The promise of [unlock] rejects exactly when there is no context yet
    and the constructor throws. *)
Lemma Sound_unlock_rejects (fresh : option Sound.ContextState) (resumed : bool) (s : Sound.t) :
  Sound.unlock fresh resumed s = None <-> Sound.ctxAudio s = None /\ fresh = None.
Proof.
  unfold Sound.unlock, Sound.ensureContext.
  destruct (Sound.ctxAudio s) as [[| |]|] eqn:E; cbn; rewrite ?E;
    try destruct fresh as [[| |]|]; cbn; split; intros H; try discriminate;
    try (destruct H; discriminate); auto.
Qed.

Lemma Sound_beep_muted (o : Sound.Options) (fresh : option Sound.ContextState) (s : Sound.t) :
  Sound.muted s = true -> Sound.beep o fresh s = Some s.
Proof. intros H. unfold Sound.beep. now rewrite H. Qed.

Lemma Sound_unlock_frame (fresh : option Sound.ContextState) (resumed : bool) (s : Sound.t) :
  Sound.muted (Sound.settle (Sound.unlock fresh resumed s) s) = Sound.muted s /\
  Sound.started (Sound.settle (Sound.unlock fresh resumed s) s) = Sound.started s /\
  Sound.timers (Sound.settle (Sound.unlock fresh resumed s) s) = Sound.timers s.
Proof.
  unfold Sound.unlock, Sound.ensureContext.
  destruct (Sound.ctxAudio s) as [[| |]|] eqn:E; cbn; rewrite ?E;
    try destruct fresh as [[| |]|]; try destruct resumed; cbn; auto.
Qed.

Lemma Sound_apply_muted (op : Sound.Op) (s : Sound.t) :
  Sound.muted s = true -> ~ Sound.is_toggle op ->
  Sound.muted (Sound.apply op s) = true /\
  Sound.started (Sound.apply op s) = Sound.started s /\
  (~ Sound.is_unlock op -> Sound.ctxAudio (Sound.apply op s) = Sound.ctxAudio s).
Proof.
  intros Hm Hop. destruct op as [fresh resumed|fresh|fresh|fresh| |fresh];
    cbn [Sound.apply Sound.is_toggle Sound.is_unlock] in *.
  - destruct (Sound_unlock_frame fresh resumed s) as (E1 & E2 & _).
    rewrite E1, E2. split; [exact Hm|]. split; [reflexivity|].
    intros H. exfalso. apply H. exact I.
  - unfold Sound.jump. rewrite Sound_beep_muted by exact Hm. cbn. auto.
  - unfold Sound.score. rewrite Sound_beep_muted by exact Hm. cbn. auto.
  - unfold Sound.hit. rewrite Sound_beep_muted by exact Hm. cbn. auto.
  - contradiction.
  - unfold Sound.timeout. destruct (Sound.timers s) as [|o rest]; [auto|].
    cbv zeta. rewrite Sound_beep_muted by exact Hm. cbn. auto.
Qed.

(** X18.  While sound is muted nothing is played: over any operations on
    the [Sound] object that do not toggle the mute flag (cues, timers
    firing, unlocks), no oscillator is started and the flag stays set; and
    unless one of them is an unlock, no audio context is constructed
    either. *)
Theorem muted_sound_is_silent (ops : list Sound.Op) (s : Sound.t) :
  Sound.muted s = true ->
  Forall (fun op => ~ Sound.is_toggle op) ops ->
  Sound.started (Sound.run ops s) = Sound.started s /\
  Sound.isMuted (Sound.run ops s) = true /\
  (Forall (fun op => ~ Sound.is_unlock op) ops ->
   Sound.ctxAudio (Sound.run ops s) = Sound.ctxAudio s).
Proof.
  intros Hm Hops. revert s Hm.
  induction Hops as [|op ops Hop Hops IH]; intros s Hm; [cbn; auto|].
  rewrite Sound_run_cons.
  destruct (Sound_apply_muted op s Hm Hop) as (Em & Es & Ec).
  destruct (IH (Sound.apply op s) Em) as (IHs & IHm & IHc).
  rewrite IHs, Es. split; [reflexivity|]. split; [exact IHm|].
  intros Hun. inversion Hun as [|? ? Hu Hus]; subst.
  rewrite (IHc Hus). exact (Ec Hu).
Qed.

Lemma muted_sound_is_silent_witness :
  Sound.muted mutedRunning = true /\
  Sound.started (Sound.run mutedCues mutedRunning) = [] /\
  Sound.timers (Sound.run mutedCues mutedRunning) = [].
Proof.
  assert (Hm : Sound.muted mutedRunning = true) by reflexivity.
  assert (Hops : Forall (fun op => ~ Sound.is_toggle op) mutedCues).
  { repeat constructor; intros H; exact H. }
  destruct (muted_sound_is_silent mutedCues mutedRunning Hm Hops) as (Es & _).
  split; [exact Hm|]. split; [exact Es | reflexivity].
Defined.

Lemma Sound_beep_not_running (o : Sound.Options) (fresh : option Sound.ContextState)
      (s : Sound.t) :
  Sound.ctxAudio s <> Some Sound.running -> fresh <> Some Sound.running ->
  Sound.started (Sound.settle (Sound.beep o fresh s) s) = Sound.started s /\
  Sound.timers (Sound.settle (Sound.beep o fresh s) s) = Sound.timers s /\
  Sound.muted (Sound.settle (Sound.beep o fresh s) s) = Sound.muted s /\
  Sound.ctxAudio (Sound.settle (Sound.beep o fresh s) s) <> Some Sound.running /\
  (Sound.beep o fresh s = None -> Sound.settle (Sound.beep o fresh s) s = s).
Proof.
  intros Hc Hf. unfold Sound.beep, Sound.ensureContext.
  destruct (Sound.muted s) eqn:Em; [cbn; rewrite Em; auto|].
  destruct (Sound.ctxAudio s) as [[| |]|] eqn:E; cbn; rewrite ?E;
    try destruct fresh as [[| |]|]; cbn; rewrite ?E, ?Em;
    repeat split; congruence.
Qed.

Lemma Sound_apply_not_running (op : Sound.Op) (s : Sound.t) :
  Sound.ctxAudio s <> Some Sound.running -> ~ may_start_audio op ->
  Sound.started (Sound.apply op s) = Sound.started s /\
  Sound.ctxAudio (Sound.apply op s) <> Some Sound.running.
Proof.
  intros Hc Hop. unfold may_start_audio in Hop.
  assert (Hfresh : forall fresh, ~ Sound.fresh_running op ->
            (op = Sound.Jump fresh \/ op = Sound.Score fresh \/ op = Sound.Hit fresh
             \/ op = Sound.Timeout fresh \/ exists r, op = Sound.Unlock fresh r) ->
            fresh <> Some Sound.running).
  { intros fresh Hn Hcase ->. apply Hn.
    destruct Hcase as [->|[->|[->|[->|[r ->]]]]]; exact I. }
  assert (Hn : ~ Sound.fresh_running op) by tauto.
  destruct op as [fresh resumed|fresh|fresh|fresh| |fresh]; cbn [Sound.apply].
  - assert (Hf : fresh <> Some Sound.running) by (apply Hfresh; eauto 10).
    assert (Hr : resumed = false).
    { destruct resumed; [|reflexivity]. exfalso. apply Hop. right. now exists fresh. }
    subst resumed. unfold Sound.unlock, Sound.ensureContext.
    destruct (Sound.ctxAudio s) as [[| |]|] eqn:E; cbn; rewrite ?E;
      try destruct fresh as [[| |]|]; cbn; rewrite ?E; split; congruence.
  - assert (Hf : fresh <> Some Sound.running) by (apply Hfresh; eauto 10).
    unfold Sound.jump. destruct (Sound_beep_not_running
      (Sound.mkOptions 720 0.07 Sound.square 0.045 0.01) fresh s Hc Hf) as (E1 & _ & _ & E3 & _).
    auto.
  - assert (Hf : fresh <> Some Sound.running) by (apply Hfresh; eauto 10).
    unfold Sound.score.
    destruct (Sound_beep_not_running
      (Sound.mkOptions 980 0.06 Sound.sine 0.05 0.01) fresh s Hc Hf) as (E1 & _ & _ & E3 & _).
    destruct (Sound.beep (Sound.mkOptions 980 0.06 Sound.sine 0.05 0.01) fresh s);
      cbn in *; auto.
  - assert (Hf : fresh <> Some Sound.running) by (apply Hfresh; eauto 10).
    unfold Sound.hit. destruct (Sound_beep_not_running
      (Sound.mkOptions 180 0.12 Sound.triangle 0.08 0.01) fresh s Hc Hf) as (E1 & _ & _ & E3 & _).
    auto.
  - cbn. auto.
  - assert (Hf : fresh <> Some Sound.running) by (apply Hfresh; eauto 10).
    unfold Sound.timeout. destruct (Sound.timers s) as [|o rest]; [auto|]. cbv zeta.
    match goal with |- context [Sound.beep o fresh ?h] =>
      destruct (Sound_beep_not_running o fresh h Hc Hf) as (E1 & _ & _ & E3 & _) end.
    auto.
Qed.

(** X19.  Cues before the audio is unlocked are dropped: as long as the
    context is not running, over any operations none of which can leave it
    running (no successful unlock, no context constructed in the running
    state), no oscillator is started, muted or not. *)
Theorem no_sound_until_running (ops : list Sound.Op) (s : Sound.t) :
  Sound.ctxAudio s <> Some Sound.running ->
  Forall (fun op => ~ may_start_audio op) ops ->
  Sound.started (Sound.run ops s) = Sound.started s /\
  Sound.ctxAudio (Sound.run ops s) <> Some Sound.running.
Proof.
  intros Hc Hops. revert s Hc.
  induction Hops as [|op ops Hop Hops IH]; intros s Hc; [cbn; auto|].
  rewrite Sound_run_cons.
  destruct (Sound_apply_not_running op s Hc Hop) as (Es & Ec).
  destruct (IH (Sound.apply op s) Ec) as (IHs & IHc).
  rewrite IHs, Es. auto.
Qed.

Lemma no_sound_until_running_witness :
  Sound.ctxAudio Sound.initial <> Some Sound.running /\
  Sound.started (Sound.run cuesBeforeUnlock Sound.initial) = [] /\
  Sound.ctxAudio (Sound.run cuesBeforeUnlock Sound.initial) = Some Sound.suspended.
Proof.
  assert (Hc : Sound.ctxAudio Sound.initial <> Some Sound.running) by discriminate.
  assert (Hops : Forall (fun op => ~ may_start_audio op) cuesBeforeUnlock).
  { repeat constructor; intros [H|[fresh H]]; solve [exact H | discriminate H]. }
  destruct (no_sound_until_running cuesBeforeUnlock Sound.initial Hc Hops) as (Es & _).
  split; [exact Hc|]. split; [exact Es | reflexivity].
Defined.

(** X20.  The second tone of the score cue obeys the mute flag as it is
    when the timer fires, not as it was when the cue was given: a score cue
    given while muted starts nothing but still arms its timer, and if sound
    is unmuted before the timer fires, with the context running, the second
    tone is played on its own. *)
Theorem muted_score_arms_timer (fresh fresh' : option Sound.ContextState) (s : Sound.t) :
  Sound.muted s = true ->
  Sound.ctxAudio s = Some Sound.running ->
  Sound.timers s = [] ->
  Sound.started (Sound.apply (Sound.Score fresh) s) = Sound.started s /\
  Sound.started (Sound.run [Sound.Score fresh; Sound.ToggleMute; Sound.Timeout fresh'] s) =
  Sound.mkOscillator Sound.sine 1220 0.04 (Qmax 0.001 0.01) 0.05 (0.05 + 0.01)
    :: Sound.started s.
Proof.
  intros Hm Hc Ht. unfold Sound.run. cbn [fold_left Sound.apply].
  unfold Sound.score. rewrite Sound_beep_muted by exact Hm.
  cbn [Sound.settle Sound.started]. split; [reflexivity|].
  unfold Sound.timeout, Sound.toggleMute. cbn [snd Sound.timers Sound.ctxAudio
    Sound.muted Sound.started]. rewrite Ht. cbn [app]. cbv zeta.
  unfold Sound.beep, Sound.ensureContext. cbn [Sound.muted Sound.ctxAudio Sound.started
    Sound.timers Sound.type Sound.freq Sound.gain Sound.ramp Sound.duration].
  rewrite Hm. cbn [negb]. rewrite Hc. reflexivity.
Qed.

Lemma muted_score_arms_timer_witness :
  Sound.muted mutedRunning = true /\
  length (Sound.started
            (Sound.run [Sound.Score None; Sound.ToggleMute; Sound.Timeout None]
                       mutedRunning)) = 1%nat.
Proof.
  assert (Hm : Sound.muted mutedRunning = true) by reflexivity.
  assert (Hc : Sound.ctxAudio mutedRunning = Some Sound.running) by reflexivity.
  assert (Ht : Sound.timers mutedRunning = []) by reflexivity.
  destruct (muted_score_arms_timer None None mutedRunning Hm Hc Ht) as (_ & E).
  split; [exact Hm|]. rewrite E. reflexivity.
Defined.

Lemma new_oscillator_well_timed (o : Sound.Options) :
  Sound.timer_ok o ->
  Sound.well_timed
    (Sound.mkOscillator (Sound.type o) (Sound.freq o) (Sound.gain o)
                        (Qmax 0.001 (Sound.ramp o)) (Sound.duration o)
                        (Sound.duration o + 0.01)).
Proof.
  intros [Hramp Hdur]. unfold Sound.well_timed. cbn. split; [|split].
  - apply Qlt_le_trans with 0.001; [reflexivity | apply Q.le_max_l].
  - apply Q.max_lub_lt; assumption.
  - lra.
Qed.

Lemma Sound_beep_well_timed (o : Sound.Options) (fresh : option Sound.ContextState)
      (s : Sound.t) :
  Sound.timer_ok o ->
  Forall Sound.well_timed (Sound.started s) ->
  Forall Sound.well_timed (Sound.started (Sound.settle (Sound.beep o fresh s) s)) /\
  Sound.timers (Sound.settle (Sound.beep o fresh s) s) = Sound.timers s.
Proof.
  intros Ho Hs. pose proof (new_oscillator_well_timed o Ho) as Hnew.
  unfold Sound.beep, Sound.ensureContext.
  destruct (Sound.muted s); [cbn; auto|].
  destruct (Sound.ctxAudio s) as [[| |]|] eqn:E; cbn; rewrite ?E;
    try destruct fresh as [[| |]|]; cbn;
    (split; [|reflexivity]); first [exact Hs | constructor; [exact Hnew | exact Hs]].
Qed.

Lemma Sound_apply_well_timed (op : Sound.Op) (s : Sound.t) :
  Forall Sound.well_timed (Sound.started s) -> Forall Sound.timer_ok (Sound.timers s) ->
  Forall Sound.well_timed (Sound.started (Sound.apply op s)) /\
  Forall Sound.timer_ok (Sound.timers (Sound.apply op s)).
Proof.
  intros Hs Ht.
  assert (Hcue : forall o, Sound.timer_ok o -> forall fresh,
             Forall Sound.well_timed (Sound.started (Sound.settle (Sound.beep o fresh s) s)) /\
             Forall Sound.timer_ok (Sound.timers (Sound.settle (Sound.beep o fresh s) s))).
  { intros o Ho fresh. destruct (Sound_beep_well_timed o fresh s Ho Hs) as [H E].
    rewrite E. auto. }
  destruct op as [fresh resumed|fresh|fresh|fresh| |fresh]; cbn [Sound.apply].
  - destruct (Sound_unlock_frame fresh resumed s) as (_ & E2 & E3).
    rewrite E2, E3. auto.
  - apply Hcue. split; vm_compute; reflexivity.
  - unfold Sound.score.
    destruct (Hcue (Sound.mkOptions 980 0.06 Sound.sine 0.05 0.01)
                   (conj eq_refl eq_refl) fresh) as [H1 H2].
    destruct (Sound.beep (Sound.mkOptions 980 0.06 Sound.sine 0.05 0.01) fresh s) as [s'|];
      cbn [Sound.settle Sound.started Sound.timers] in *; [|auto].
    split; [exact H1|]. apply Forall_app. split; [exact H2|].
    constructor; [split; vm_compute; reflexivity | constructor].
  - apply Hcue. split; vm_compute; reflexivity.
  - cbn. auto.
  - unfold Sound.timeout. destruct (Sound.timers s) as [|o rest] eqn:E; [rewrite E; auto|].
    inversion Ht as [|? ? Ho Hrest]; subst. cbv zeta.
    match goal with |- context [Sound.beep o fresh ?h] =>
      destruct (Sound_beep_well_timed o fresh h Ho Hs) as [H1 H2] end.
    rewrite H2. auto.
Qed.

(** X21.  Every oscillator the object ever starts has its envelope in
    order: the gain rises for a positive time, the fall ends later than the
    rise, and the oscillator stops after the fall has ended. *)
Theorem oscillators_well_timed (ops : list Sound.Op) (s : Sound.t) :
  Forall Sound.well_timed (Sound.started s) ->
  Forall Sound.timer_ok (Sound.timers s) ->
  Forall Sound.well_timed (Sound.started (Sound.run ops s)).
Proof.
  revert s. induction ops as [|op ops IH]; intros s Hs Ht; [exact Hs|].
  rewrite Sound_run_cons.
  destruct (Sound_apply_well_timed op s Hs Ht) as [Hs' Ht'].
  now apply IH.
Qed.

Lemma oscillators_well_timed_witness :
  length (Sound.started (Sound.run audibleSession Sound.initial)) = 4%nat /\
  Forall Sound.well_timed (Sound.started (Sound.run audibleSession Sound.initial)).
Proof.
  assert (Hs : Forall Sound.well_timed (Sound.started Sound.initial)) by constructor.
  assert (Ht : Forall Sound.timer_ok (Sound.timers Sound.initial)) by constructor.
  split; [reflexivity|].
  exact (oscillators_well_timed audibleSession Sound.initial Hs Ht).
Defined.

(** ** When [unlock] rejects *)

Lemma Sound_apply_keeps_context (op : Sound.Op) (s : Sound.t) :
  Sound.ctxAudio s <> None -> Sound.ctxAudio (Sound.apply op s) <> None.
Proof.
  intros H. destruct (Sound.ctxAudio s) as [c|] eqn:E; [clear H | contradiction].
  destruct op as [fresh resumed|fresh|fresh|fresh| |fresh]; cbn [Sound.apply].
  - unfold Sound.unlock, Sound.ensureContext. rewrite E.
    destruct c, resumed; cbv [Sound.settle]; cbn; rewrite ?E; discriminate.
  - unfold Sound.jump, Sound.beep, Sound.ensureContext. rewrite E.
    destruct (Sound.muted s), c; cbv [Sound.settle]; cbn; rewrite ?E; discriminate.
  - unfold Sound.score, Sound.beep, Sound.ensureContext. rewrite E.
    destruct (Sound.muted s), c; cbv [Sound.settle]; cbn; rewrite ?E; discriminate.
  - unfold Sound.hit, Sound.beep, Sound.ensureContext. rewrite E.
    destruct (Sound.muted s), c; cbv [Sound.settle]; cbn; rewrite ?E; discriminate.
  - cbn. rewrite E. discriminate.
  - unfold Sound.timeout. destruct (Sound.timers s) as [|o rest]; [rewrite E; discriminate|].
    unfold Sound.beep, Sound.ensureContext. cbn [Sound.ctxAudio Sound.muted].
    rewrite E. destruct (Sound.muted s), c; cbv [Sound.settle]; cbn; rewrite ?E; discriminate.
Qed.

Lemma Sound_run_keeps_context (ops : list Sound.Op) (s : Sound.t) :
  Sound.ctxAudio s <> None -> Sound.ctxAudio (Sound.run ops s) <> None.
Proof.
  revert s. induction ops as [|op ops IH]; intros s H; [exact H|].
  rewrite Sound_run_cons. apply IH. now apply Sound_apply_keeps_context.
Qed.

Lemma Sound_beep_returns (o : Sound.Options) (fresh : option Sound.ContextState) (s : Sound.t) :
  Sound.ctxAudio s <> None -> Sound.beep o fresh s <> None.
Proof.
  intros H. unfold Sound.beep, Sound.ensureContext.
  destruct (Sound.ctxAudio s) as [c|] eqn:E; [clear H | contradiction].
  destruct (Sound.muted s), c; cbn; rewrite ?E; discriminate.
Qed.

(** X22.  [unlock] rejects exactly when no audio context exists yet and the
    constructor throws.  An unlock that fulfils leaves a context behind,
    and a context, once there, stays through whatever is done with the
    object: from then on no unlock rejects and no cue throws. *)
Theorem unlock_rejects_only_without_context
        (fresh : option Sound.ContextState) (resumed : bool) (ops : list Sound.Op)
        (s : Sound.t) :
  (Sound.unlock fresh resumed s = None <-> Sound.ctxAudio s = None /\ fresh = None) /\
  (forall s' : Sound.t,
      Sound.unlock fresh resumed s = Some s' ->
      Sound.ctxAudio s' <> None /\
      Sound.ctxAudio (Sound.run ops s') <> None /\
      forall (fresh' : option Sound.ContextState) (resumed' : bool),
        Sound.unlock fresh' resumed' (Sound.run ops s') <> None /\
        Sound.jump fresh' (Sound.run ops s') <> None /\
        Sound.score fresh' (Sound.run ops s') <> None /\
        Sound.hit fresh' (Sound.run ops s') <> None).
Proof.
  split; [apply Sound_unlock_rejects|].
  intros s' Hs'.
  assert (Hctx : Sound.ctxAudio s' <> None).
  { revert Hs'. unfold Sound.unlock, Sound.ensureContext.
    destruct (Sound.ctxAudio s) as [c|] eqn:E.
    - rewrite E. destruct c, resumed; intros [= <-]; cbn; rewrite ?E; discriminate.
    - destruct fresh as [c|]; [|discriminate]. cbn.
      destruct c, resumed; intros [= <-]; cbn; discriminate. }
  split; [exact Hctx|].
  pose proof (Sound_run_keeps_context ops s' Hctx) as Hrun.
  split; [exact Hrun|]. intros fresh' resumed'.
  split; [|split; [|split]].
  - intros H. apply Sound_unlock_rejects in H. destruct H as [H _]. contradiction.
  - now apply Sound_beep_returns.
  - unfold Sound.score.
    pose proof (Sound_beep_returns (Sound.mkOptions 980 0.06 Sound.sine 0.05 0.01) fresh'
                                   _ Hrun) as H.
    destruct (Sound.beep _ fresh' _); [discriminate | contradiction].
  - now apply Sound_beep_returns.
Qed.

Lemma unlock_rejects_only_without_context_witness :
  Sound.unlock None true Sound.initial = None /\
  Sound.unlock (Some Sound.suspended) true Sound.initial
  = Some (Sound.mkSound (Some Sound.running) false [] []) /\
  Sound.unlock None false
               (Sound.run audibleSession (Sound.mkSound (Some Sound.running) false [] []))
  <> None /\
  Sound.hit None (Sound.run audibleSession (Sound.mkSound (Some Sound.running) false [] []))
  <> None.
Proof.
  destruct (unlock_rejects_only_without_context None true [] Sound.initial) as (Hrej & _).
  destruct (unlock_rejects_only_without_context
              (Some Sound.suspended) true audibleSession Sound.initial) as (_ & Hok).
  destruct (Hok (Sound.mkSound (Some Sound.running) false [] []) eq_refl)
    as (_ & _ & Hlater).
  destruct (Hlater None false) as (Hunlock & _ & _ & Hhit).
  split; [apply Hrej; split; reflexivity|].
  split; [reflexivity|]. split; [exact Hunlock | exact Hhit].
Defined.
